(** * gpiocount: a GPIO button/LED counter kernel module

    Shallow embedding of [src/gpiocount.c] and the properties of its
    control core: the bounded counter, the LED encoder, the LED descriptor
    scanner with its hardware acquisition, the debounced interrupt handler
    and the sysfs store operations.

    Conventions.
    - The module's [static] globals are the fields of one record [state],
      threaded explicitly through every operation.
    - [uint8_t], [unsigned int]/[uint32_t] and [uint64_t] values are [Z]
      with the wrap-around written out ([u8], [u32], [u64]).
    - The GPIO and interrupt layer of the kernel is not part of the module.
      What it answers is taken from a record [hardware]; what the module
      asks of it is appended to the field [calls] of the state, oldest
      call first.
    - Locals that the C code reads without having written them hold an
      indeterminate value, taken from a record [uninit].
    - [printk] logging is not modelled. *)

From Stdlib Require Import ZArith Lia Bool Ascii String.
From Stdlib Require Import DecimalString DecimalPos DecimalN.
From stdpp Require Import base list.

Local Open Scope Z_scope.

(** ** Machine integers *)

Definition u8 (z : Z) : Z := z mod 256.
Definition u32 (z : Z) : Z := z mod 2 ^ 32.
Definition u64 (z : Z) : Z := z mod 2 ^ 64.

(** ** Error numbers (errno-base.h) *)

Definition EPERM : Z := 1.
Definition ENODEV : Z := 19.
Definition EINVAL : Z := 22.

Definition MAX_LEDS : Z := 8.
Definition GPIO_MAX_DIGITS : Z := 3.

(** ** Module state *)

(** One element of [led_values]. *)
Record led := Led { on : bool; gpio : Z }.

#[global] Instance led_inhabited : Inhabited led := populate (Led false 0).

(** Calls into the GPIO / interrupt layer, as the module issues them. *)
Inductive gpio_call :=
| GpioDirectionOutput (pin v : Z)
| GpioDirectionInput (pin : Z)
| GpioSetValue (pin v : Z)
| GpioUnexport (pin : Z)
| GpioFree (pin : Z)
| GpioSetDebounce (pin ms : Z)
| RequestIrq (irq result : Z)
| FreeIrq (irq : Z).

Record state := State {
  enable_gpio : bool;
  led_count : Z;
  led_values : list led;
  gpio_increment_button : Z;
  value : Z;
  max_value : Z;
  max_possible : Z;
  last_interrupt_time_msec : Z;
  epoch_msec : Z;
  increment_irq : Z;
  calls : list gpio_call
}.

(** The state right after the module's static initialisers. *)
Definition initial_state (enable : bool) : state :=
  State enable 0 (replicate 8 (Led false 0)) 0 0 0 0 0 0 0 [].

Definition set_led_count (n : Z) (s : state) : state :=
  State (enable_gpio s) n (led_values s) (gpio_increment_button s) (value s)
        (max_value s) (max_possible s) (last_interrupt_time_msec s)
        (epoch_msec s) (increment_irq s) (calls s).

Definition set_led_values (l : list led) (s : state) : state :=
  State (enable_gpio s) (led_count s) l (gpio_increment_button s) (value s)
        (max_value s) (max_possible s) (last_interrupt_time_msec s)
        (epoch_msec s) (increment_irq s) (calls s).

Definition set_gpio_increment_button (b : Z) (s : state) : state :=
  State (enable_gpio s) (led_count s) (led_values s) b (value s)
        (max_value s) (max_possible s) (last_interrupt_time_msec s)
        (epoch_msec s) (increment_irq s) (calls s).

Definition set_value (v : Z) (s : state) : state :=
  State (enable_gpio s) (led_count s) (led_values s) (gpio_increment_button s) v
        (max_value s) (max_possible s) (last_interrupt_time_msec s)
        (epoch_msec s) (increment_irq s) (calls s).

Definition set_max_value (v : Z) (s : state) : state :=
  State (enable_gpio s) (led_count s) (led_values s) (gpio_increment_button s)
        (value s) v (max_possible s) (last_interrupt_time_msec s)
        (epoch_msec s) (increment_irq s) (calls s).

Definition set_max_possible (v : Z) (s : state) : state :=
  State (enable_gpio s) (led_count s) (led_values s) (gpio_increment_button s)
        (value s) (max_value s) v (last_interrupt_time_msec s)
        (epoch_msec s) (increment_irq s) (calls s).

Definition set_last_interrupt_time_msec (t : Z) (s : state) : state :=
  State (enable_gpio s) (led_count s) (led_values s) (gpio_increment_button s)
        (value s) (max_value s) (max_possible s) t
        (epoch_msec s) (increment_irq s) (calls s).

Definition set_epoch_msec (t : Z) (s : state) : state :=
  State (enable_gpio s) (led_count s) (led_values s) (gpio_increment_button s)
        (value s) (max_value s) (max_possible s) (last_interrupt_time_msec s)
        t (increment_irq s) (calls s).

Definition set_increment_irq (i : Z) (s : state) : state :=
  State (enable_gpio s) (led_count s) (led_values s) (gpio_increment_button s)
        (value s) (max_value s) (max_possible s) (last_interrupt_time_msec s)
        (epoch_msec s) i (calls s).

(** Issue one call to the GPIO / interrupt layer. *)
Definition call (c : gpio_call) (s : state) : state :=
  State (enable_gpio s) (led_count s) (led_values s) (gpio_increment_button s)
        (value s) (max_value s) (max_possible s) (last_interrupt_time_msec s)
        (epoch_msec s) (increment_irq s) (calls s ++ [c]).

(** [led_values[i]]; every access in the module is guarded by
    [i < led_count <= MAX_LEDS]. *)
Definition led_at (i : Z) (s : state) : led := led_values s !!! Z.to_nat i.

(** ** Counter state *)

(** [increment_maybe_wrap]: the flag returned is "wrapped". *)
Definition increment_maybe_wrap (s : state) : bool * state :=
  if value s <? max_possible s then
    let s1 := set_value (u8 (value s + 1)) s in
    let s2 := if value s1 >? max_value s1
              then set_max_value (u8 (max_value s1 + 1)) s1
              else s1 in
    (false, s2)
  else
    (true, set_value 0 s).

Definition zero_counters (s : state) : state :=
  set_max_possible 0 (set_value 0 s).

(** [setup_max_possible]: the loop body runs [led_count] times. *)
Definition setup_max_possible (s : state) : state :=
  let mp := Nat.iter (Z.to_nat (led_count s))
                     (fun m => u8 (Z.lor (Z.shiftl m 1) 1)) 0 in
  let s1 := set_max_possible mp s in
  if value s1 >? max_possible s1 then set_value 0 s1 else s1.

(** ** The kernel's [sscanf(buf, "%u", &t)]

    [sscanf] belongs to the kernel library, not to the module.  For the
    single conversion [%u] it skips leading white space, requires a decimal
    digit, accumulates the maximal run of digits in an [unsigned long long]
    (wrapping) and stores the result through an [unsigned int *].  When the
    input does not start with a digit nothing is stored. *)

Definition isspace (c : ascii) : bool :=
  let n := N_of_ascii c in
  ((9 <=? n) && (n <=? 13) || (n =? 32) || (n =? 160))%N.

Definition isdigit (c : ascii) : bool :=
  let n := N_of_ascii c in ((48 <=? n) && (n <=? 57))%N.

Definition digit_value (c : ascii) : Z := Z.of_N (N_of_ascii c) - 48.

Fixpoint skip_spaces (s : string) : string :=
  match s with
  | String c r => if isspace c then skip_spaces r else s
  | EmptyString => s
  end.

Fixpoint strtoull (s : string) (acc : Z) : Z :=
  match s with
  | String c r =>
      if isdigit c then strtoull r (u64 (acc * 10 + digit_value c)) else acc
  | EmptyString => acc
  end.

Definition sscanf_u (buf : string) : option Z :=
  match skip_spaces buf with
  | String c r =>
      if isdigit c then Some (u32 (strtoull (String c r) 0)) else None
  | EmptyString => None
  end.

(** ** Environment *)

(** Answers of the GPIO / interrupt layer. *)
Record hardware := Hardware {
  gpio_is_valid : Z -> bool;
  gpio_set_debounce : Z -> Z -> Z;
  gpio_to_irq : Z -> Z;
  request_irq : Z -> Z
}.

(** Contents of the locals that are read before being written:
    [j] in the release loop of [assign_leds] ([uint8_t j = j]), [ttt] in
    [assign_leds] when [sscanf] converts nothing (one value per LED slot),
    and [t] in the sysfs store functions when [sscanf] converts nothing. *)
Record uninit := Uninit {
  uninit_j : Z;
  uninit_ttt : Z -> Z;
  uninit_t : Z
}.

Section Driver.

Variable hw : hardware.
Variable junk : uninit.

(** ** LED assignment *)

(** What the branch "end of a number" of the scanning loop does. *)
Inductive number_outcome :=
| NumReturn (code : Z) (s : state)   (* return code *)
| NumBreak (s : state)               (* break: too many LED GPIOs *)
| NumAdded (s : state).              (* one more entry in led_values *)

Definition end_of_number (gpio_digits : string) (s : state) : number_outcome :=
  if Z.of_nat (String.length gpio_digits) =? 0 then
    NumReturn (- EINVAL) (set_led_count 0 s)
  else if led_count s >=? MAX_LEDS then
    NumBreak s
  else
    let ttt := match sscanf_u gpio_digits with
               | Some v => v
               | None => uninit_ttt junk (led_count s)
               end in
    let s1 := set_led_values
                (<[Z.to_nat (led_count s) := Led false (u8 ttt)]> (led_values s)) s in
    NumAdded (set_led_count (u8 (led_count s1 + 1)) s1).

Inductive scan_outcome :=
| ScanReturn (code : Z) (s : state)  (* the function returned inside the loop *)
| ScanDone (s : state).              (* the loop was left by a break *)

Definition at_terminator (gpio_digits : string) (s : state) : scan_outcome :=
  match end_of_number gpio_digits s with
  | NumReturn code s' => ScanReturn code s'
  | NumBreak s' => ScanDone s'
  | NumAdded s' => ScanDone s'
  end.

(** The [for (;;)] loop of [assign_leds].  [curr] is the rest of the C
    string: its end, or a NUL character, is the terminator.
    [gpio_digits] holds the characters of the current number, so that
    [next_digit] is its length. *)
Fixpoint assign_leds_scan (curr : string) (gpio_digits : string) (s : state)
  : scan_outcome :=
  match curr with
  | EmptyString => at_terminator gpio_digits s
  | String c rest =>
      if Ascii.eqb c zero then at_terminator gpio_digits s
      else if Ascii.eqb c "," then
        match end_of_number gpio_digits s with
        | NumReturn code s' => ScanReturn code s'
        | NumBreak s' => ScanDone s'
        | NumAdded s' => assign_leds_scan rest EmptyString s'
        end
      else if Z.of_nat (String.length gpio_digits) >=? GPIO_MAX_DIGITS then
        ScanReturn (- EINVAL) (set_led_count 0 s)
      else
        assign_leds_scan rest (gpio_digits ++ String c EmptyString) s
  end.

(** The release loop [for (uint8_t j = j; j < i; j++)]: [n] bounds the
    number of iterations that remain. *)
Fixpoint release_prior (n : nat) (j : Z) (s : state) : state :=
  match n with
  | O => s
  | S n' =>
      let pin := gpio (led_at j s) in
      release_prior n' (u8 (j + 1)) (call (GpioFree pin) (call (GpioSetValue pin 0) s))
  end.

(** The initialisation loop [for (uint8_t i = 0; i < led_count; i++)]. *)
Fixpoint init_leds (n : nat) (i : Z) (s : state) : Z * state :=
  match n with
  | O => (0, s)
  | S n' =>
      let pin := gpio (led_at i s) in
      if negb (gpio_is_valid hw pin) then
        let j := u8 (uninit_j junk) in
        (- ENODEV, zero_counters (release_prior (Z.to_nat (i - j)) j s))
      else
        init_leds n' (u8 (i + 1)) (call (GpioDirectionOutput pin 0) s)
  end.

Definition assign_leds (led_desc : string) (s : state) : Z * state :=
  if led_count s >? 0 then (- EPERM, s)
  else
    match assign_leds_scan led_desc EmptyString s with
    | ScanReturn code s' => (code, s')
    | ScanDone s1 =>
        let s2 := setup_max_possible s1 in
        if enable_gpio s2 then init_leds (Z.to_nat (led_count s2)) 0 s2
        else (0, s2)
    end.

Fixpoint unassign_loop (n : nat) (i : Z) (s : state) : state :=
  match n with
  | O => s
  | S n' =>
      let pin := gpio (led_at i s) in
      unassign_loop n' (u8 (i + 1))
        (call (GpioFree pin) (call (GpioUnexport pin) (call (GpioSetValue pin 0) s)))
  end.

Definition unassign_leds (s : state) : Z * state :=
  let s1 := if enable_gpio s
            then unassign_loop (Z.to_nat (led_count s)) 0 s
            else s in
  (0, set_led_count 0 s1).

(** ** LED encoding *)

(** First loop of [set_leds_from_value]: shift the low bit out of [bits]
    into [led_values[i].on]. *)
Fixpoint encode_loop (n : nat) (i : Z) (bits : Z) (l : list led) : list led :=
  match n with
  | O => l
  | S n' =>
      let bit := Z.land bits 1 in
      let bits' := Z.shiftr bits 1 in
      encode_loop n' (i + 1) bits'
        (alter (fun e => Led (bit =? 1) (gpio e)) (Z.to_nat i) l)
  end.

(** Second loop: drive every assigned pin. *)
Fixpoint drive_loop (n : nat) (i : Z) (s : state) : state :=
  match n with
  | O => s
  | S n' =>
      let e := led_at i s in
      drive_loop n' (i + 1)
        (call (GpioSetValue (gpio e) (if on e then 1 else 0)) s)
  end.

Definition set_leds_from_value (s : state) : Z * state :=
  let n := Z.to_nat (led_count s) in
  let s1 := set_led_values (encode_loop n 0 (value s) (led_values s)) s in
  let s2 := if enable_gpio s1 then drive_loop n 0 s1 else s1 in
  (0, s2).

(** ** Debouncing *)

(** [struct timeval] as returned by [do_gettimeofday]. *)
Record timeval := Timeval { tv_sec : Z; tv_usec : Z }.

Definition msec_of_timeval (tv : timeval) : Z :=
  u64 (u64 (u64 (tv_sec tv) * 1000) + u64 (Z.quot (tv_usec tv) 1000)).

Definition init_debounce (tv : timeval) (s : state) : state :=
  set_epoch_msec (msec_of_timeval tv) s.

Definition since_epoch_msec (tv : timeval) (s : state) : Z :=
  u32 (u64 (msec_of_timeval tv - epoch_msec s)).

(** ** Button handler

    [tv] is what [do_gettimeofday] reports when the interrupt fires; the
    handler always returns [IRQ_HANDLED]. *)
Definition button_irq_handler (tv : timeval) (s : state) : state :=
  let interrupt_time_msec := since_epoch_msec tv s in
  if u32 (interrupt_time_msec - last_interrupt_time_msec s) <? 200 then s
  else
    let s1 := set_last_interrupt_time_msec interrupt_time_msec s in
    let s2 := snd (increment_maybe_wrap s1) in
    snd (set_leds_from_value s2).

Definition assign_increment_button (s : state) : Z * state :=
  if enable_gpio s then
    if negb (gpio_is_valid hw (gpio_increment_button s)) then (- EINVAL, s)
    else
      let s1 := call (GpioDirectionInput (gpio_increment_button s)) s in
      (* the result of gpio_set_debounce is only logged *)
      let s2 := call (GpioSetDebounce (gpio_increment_button s1) 200) s1 in
      let s3 := set_increment_irq (u32 (gpio_to_irq hw (gpio_increment_button s2))) s2 in
      let result := request_irq hw (increment_irq s3) in
      let s4 := call (RequestIrq (increment_irq s3) result) s3 in
      if negb (result =? 0) then (result, s4) else (0, s4)
  else (0, s).

Definition unassign_increment_button (s : state) : Z * state :=
  if enable_gpio s then
    if gpio_increment_button s >? 0 then
      let s1 := call (FreeIrq (increment_irq s)) s in
      let s2 := call (GpioUnexport (gpio_increment_button s1)) s1 in
      (0, call (GpioFree (gpio_increment_button s2)) s2)
    else (0, s)
  else (0, s).

Definition unassign_buttons (s : state) : Z * state :=
  let '(result, s1) := unassign_increment_button s in
  if negb (result =? 0) then (result, s1) else (0, s1).

(** ** sysfs store operations

    Each takes the text written ([buf]) and its length ([count]) and
    returns what the writer is told together with the new state: a
    non-negative result is the number of bytes accepted, a negative one
    would be an error. *)

Definition scan_t (buf : string) : Z :=
  match sscanf_u buf with
  | Some v => v
  | None => u32 (uninit_t junk)
  end.

Definition value_store (buf : string) (count : Z) (s : state) : Z * state :=
  let t := scan_t buf in
  let s1 := set_value (u8 t) s in
  (count, snd (set_leds_from_value s1)).

Definition max_value_store (buf : string) (count : Z) (s : state) : Z * state :=
  let t := scan_t buf in
  (count, set_max_value (u8 t) s).

Definition gpio_leds_store (buf : string) (count : Z) (s : state) : Z * state :=
  let s1 := snd (unassign_leds s) in
  let s2 := snd (assign_leds buf s1) in
  (count, snd (set_leds_from_value s2)).

Definition increment_store (buf : string) (count : Z) (s : state) : Z * state :=
  let s1 := snd (increment_maybe_wrap s) in
  (count, snd (set_leds_from_value s1)).

Definition gpio_button_increment_store (buf : string) (count : Z) (s : state)
  : Z * state :=
  let t := scan_t buf in
  let s1 := snd (unassign_increment_button s) in
  let s2 := set_gpio_increment_button (u8 t) s1 in
  (count, snd (assign_increment_button s2)).

End Driver.

(** * Properties *)

(** ** Definitions used in the statements *)

(** [n] consecutive calls of [increment_maybe_wrap]: the flags returned,
    first call first, and the final state. *)
Fixpoint increment_n (n : nat) (s : state) : list bool * state :=
  match n with
  | O => ([], s)
  | S n' =>
      let (w, s1) := increment_maybe_wrap s in
      let (ws, s2) := increment_n n' s1 in
      (w :: ws, s2)
  end.

(** The invariant of the counter. *)
Definition counter_inv (s : state) : Prop := 0 <= value s <= max_possible s.

(** A hardware layer that accepts every pin and every interrupt request,
    and one that rejects pin 77 only. *)
Definition hw_all_valid : hardware :=
  Hardware (fun _ => true) (fun _ _ => 0) (fun p => p + 100) (fun _ => 0).

Definition hw_no_77 : hardware :=
  Hardware (fun p => negb (p =? 77)) (fun _ _ => 0) (fun p => p + 100) (fun _ => 0).

Definition junk0 : uninit := Uninit 0 (fun _ => 0) 0.

(** [issue cs s]: [s] after the calls [cs], nothing else changed. *)
Definition issue (cs : list gpio_call) (s : state) : state :=
  State (enable_gpio s) (led_count s) (led_values s) (gpio_increment_button s)
        (value s) (max_value s) (max_possible s) (last_interrupt_time_msec s)
        (epoch_msec s) (increment_irq s) (calls s ++ cs).

(** [leds_of n l s]: [s] with [led_count] and [led_values] replaced. *)
Definition leds_of (n : Z) (l : list led) (s : state) : state :=
  set_led_values l (set_led_count n s).

Definition scan_state (o : scan_outcome) : state :=
  match o with
  | ScanReturn _ s => s
  | ScanDone s => s
  end.

(** The decimal text of a number, as [printf("%u")] would write it. *)
Definition decimal (t : N) : string := NilEmpty.string_of_uint (N.to_uint t).

Definition starts_with_digit (s : string) : bool :=
  match s with
  | String c _ => isdigit c
  | EmptyString => false
  end.

(** A numeral read from its most significant digit on. *)
Fixpoint uint_val (d : Decimal.uint) (acc : Z) : Z :=
  match d with
  | Decimal.Nil => acc
  | Decimal.D0 d' => uint_val d' (acc * 10 + 0)
  | Decimal.D1 d' => uint_val d' (acc * 10 + 1)
  | Decimal.D2 d' => uint_val d' (acc * 10 + 2)
  | Decimal.D3 d' => uint_val d' (acc * 10 + 3)
  | Decimal.D4 d' => uint_val d' (acc * 10 + 4)
  | Decimal.D5 d' => uint_val d' (acc * 10 + 5)
  | Decimal.D6 d' => uint_val d' (acc * 10 + 6)
  | Decimal.D7 d' => uint_val d' (acc * 10 + 7)
  | Decimal.D8 d' => uint_val d' (acc * 10 + 8)
  | Decimal.D9 d' => uint_val d' (acc * 10 + 9)
  end.

(** The state in which [gpio_button_increment_store] calls
    [assign_increment_button]: the previous button released, the new pin
    number stored. *)
Definition button_store_attempt (junk : uninit) (buf : string) (s : state) : state :=
  set_gpio_increment_button (u8 (scan_t junk buf))
                            (snd (unassign_increment_button s)).

(** The fields of a descriptor: the text up to its end (or to a NUL
    character), cut at every comma.  [cur] is the part of the current
    field that has been read. *)
Fixpoint fields_from (s : string) (cur : string) : list string :=
  match s with
  | EmptyString => [cur]
  | String c r =>
      if Ascii.eqb c zero then [cur]
      else if Ascii.eqb c "," then cur :: fields_from r EmptyString
      else fields_from r (cur ++ String c EmptyString)
  end.

Definition fields (d : string) : list string := fields_from d EmptyString.

(** A field is malformed when it is empty or longer than three characters. *)
Definition bad_field (f : string) : bool :=
  (String.length f =? 0)%nat || (3 <? String.length f)%nat.

(** The entry stored for field [f] in slot [i]. *)
Definition led_of_field (junk : uninit) (i : Z) (f : string) : led :=
  Led false (u8 (match sscanf_u f with
                 | Some v => v
                 | None => uninit_ttt junk i
                 end)).

Definition add_led (junk : uninit) (f : string) (s : state) : state :=
  set_led_count (u8 (led_count s + 1))
    (set_led_values
       (<[Z.to_nat (led_count s) := led_of_field junk (led_count s) f]> (led_values s)) s).

(** The scan, told field by field. *)
Fixpoint parse_fields (junk : uninit) (fs : list string) (s : state) : scan_outcome :=
  match fs with
  | [] => ScanDone s
  | f :: rest =>
      if bad_field f then ScanReturn (- EINVAL) (set_led_count 0 s)
      else if led_count s >=? MAX_LEDS then ScanDone s
      else parse_fields junk rest (add_led junk f s)
  end.

(** [assign_leds] on a descriptor with no LED assigned, GPIO disabled,
    and the pins it leaves assigned. *)
Definition run_desc (d : string) : Z * state :=
  assign_leds hw_all_valid junk0 d (initial_state false).

Definition assigned_pins (r : Z * state) : list Z :=
  map gpio (take (Z.to_nat (led_count (snd r))) (led_values (snd r))).

(** The LED table is well formed: at most [MAX_LEDS] entries are in use
    and the array has its 8 elements. *)
Definition wf_leds (s : state) : Prop :=
  0 <= led_count s <= 8 /\ length (led_values s) = 8%nat.

(** The LEDs show the counter: entry [i] is on iff bit [i] of [value] is
    set, for every assigned position. *)
Definition leds_show_value (s : state) : Prop :=
  forall i, 0 <= i < led_count s -> on (led_at i s) = Z.testbit (value s) i.

(** The calls that release the pin of entry [k]. *)
Definition release_calls (s : state) (k : Z) : list gpio_call :=
  [GpioSetValue (gpio (led_at k s)) 0;
   GpioUnexport (gpio (led_at k s));
   GpioFree (gpio (led_at k s))].

(** The sysfs show operations return what [sprintf] returns, the number
    of characters written, together with the text left in the buffer.
    The kernel's [sprintf("%u")] writes the decimal digits of the
    number. *)
Definition sprintf_u (n : Z) : string := decimal (Z.to_N n).

Definition newline : string := String (ascii_of_nat 10) EmptyString.

(** [value_show]: [sprintf(buf, "%u\n", value)]. *)
Definition value_show (s : state) : Z * string :=
  let buf := (sprintf_u (value s) ++ newline)%string in
  (Z.of_nat (String.length buf), buf).

(** [max_value_show]: [sprintf(buf, "%u\n", max_value)]. *)
Definition max_value_show (s : state) : Z * string :=
  let buf := (sprintf_u (max_value s) ++ newline)%string in
  (Z.of_nat (String.length buf), buf).

(** [gpio_button_increment_show]:
    [sprintf(buf, "%u\n", gpio_increment_button)]. *)
Definition gpio_button_increment_show (s : state) : Z * string :=
  let buf := (sprintf_u (gpio_increment_button s) ++ newline)%string in
  (Z.of_nat (String.length buf), buf).

(** The loop of [gpio_leds_show]: [buf] is what has been written. *)
Fixpoint gpio_leds_show_loop (n : nat) (i : Z) (s : state) (buf : string) : string :=
  match n with
  | O => buf
  | S n' =>
      let buf1 := if negb (i =? 0) then (buf ++ ",")%string else buf in
      let buf2 := (buf1 ++ sprintf_u (gpio (led_at i s)))%string in
      gpio_leds_show_loop n' (i + 1) s buf2
  end.

(** [gpio_leds_show]: the pins separated by commas, then a newline. *)
Definition gpio_leds_show (s : state) : Z * string :=
  let buf := (gpio_leds_show_loop (Z.to_nat (led_count s)) 0 s EmptyString
              ++ newline)%string in
  (Z.of_nat (String.length buf), buf).

(** The pins assigned, in order. *)
Definition led_pins (s : state) : list Z :=
  map (fun k => gpio (led_at k s)) (seqZ 0 (led_count s)).

(** [",p1,p2,..."]: what the loop of [gpio_leds_show] writes after the
    first pin. *)
Fixpoint show_tail (ps : list Z) : string :=
  match ps with
  | [] => EmptyString
  | p :: ps' => ("," ++ sprintf_u p ++ show_tail ps')%string
  end.

(** No NUL character in the text. *)
Fixpoint no_nul (d : string) : bool :=
  match d with
  | EmptyString => true
  | String c r => negb (Ascii.eqb c zero) && no_nul r
  end.

(** ** Counter engine *)

Lemma increment_below (s : state) :
  value s < max_possible s ->
  increment_maybe_wrap s =
    (false,
     if u8 (value s + 1) >? max_value s
     then set_max_value (u8 (max_value s + 1)) (set_value (u8 (value s + 1)) s)
     else set_value (u8 (value s + 1)) s).
Proof.
  intros H. unfold increment_maybe_wrap.
  destruct (Z.ltb_spec (value s) (max_possible s)); [reflexivity | lia].
Qed.

Lemma increment_at_ceiling (s : state) :
  max_possible s <= value s ->
  increment_maybe_wrap s = (true, set_value 0 s).
Proof.
  intros H. unfold increment_maybe_wrap.
  destruct (Z.ltb_spec (value s) (max_possible s)); [lia | reflexivity].
Qed.

(** Where the counter has never been overridden ([value <= max_value]),
    an increment below the ceiling keeps [max_value] the highest value
    reached. *)
Lemma increment_tracks_max (s : state) :
  0 <= value s < max_possible s -> max_possible s < 256 ->
  value s <= max_value s < 256 ->
  let s' := snd (increment_maybe_wrap s) in
  value s' = value s + 1 /\
  (value s' > max_value s -> max_value s' = value s') /\
  (value s' <= max_value s -> max_value s' = max_value s).
Proof.
  intros Hv Hm Hx. rewrite increment_below by lia. cbn [snd].
  assert (E : u8 (value s + 1) = value s + 1)
    by (unfold u8; apply Z.mod_small; lia).
  rewrite E.
  destruct (Z.gtb_spec (value s + 1) (max_value s)) as [G|G]; cbn.
  - unfold u8. rewrite Z.mod_small by lia. lia.
  - lia.
Qed.

(** After an override that left [value] above [max_value], an increment
    below the ceiling raises [max_value] by one only: it stays below the
    new value. *)
Lemma increment_above_max (s : state) :
  value s < max_possible s -> max_possible s < 256 ->
  0 <= max_value s < value s ->
  let s' := snd (increment_maybe_wrap s) in
  value s' = value s + 1 /\ max_value s' = max_value s + 1 /\
  max_value s' < value s'.
Proof.
  intros Hv Hm Hx. rewrite increment_below by lia. cbn [snd].
  assert (E : u8 (value s + 1) = value s + 1)
    by (unfold u8; apply Z.mod_small; lia).
  rewrite E.
  destruct (Z.gtb_spec (value s + 1) (max_value s)) as [G|G]; [|lia]. cbn.
  unfold u8. rewrite !Z.mod_small by lia. lia.
Qed.

Lemma increment_n_snoc (n : nat) (s : state) :
  increment_n (S n) s =
    (fst (increment_n n s) ++ [fst (increment_maybe_wrap (snd (increment_n n s)))],
     snd (increment_maybe_wrap (snd (increment_n n s)))).
Proof.
  revert s. induction n as [|n IH]; intros s.
  - cbn. destruct (increment_maybe_wrap s); reflexivity.
  - change (increment_n (S (S n)) s)
      with (let (w, s1) := increment_maybe_wrap s in
            let (ws, s2) := increment_n (S n) s1 in (w :: ws, s2)).
    destruct (increment_maybe_wrap s) as [w s1] eqn:E1.
    rewrite IH. cbn [increment_n]. rewrite E1.
    destruct (increment_n n s1) as [ws s2]. reflexivity.
Qed.

(** Counting up without reaching the ceiling never reports a wrap. *)
Lemma increment_n_below (n : nat) (s : state) :
  0 <= value s -> value s + Z.of_nat n <= max_possible s ->
  max_possible s < 256 ->
  fst (increment_n n s) = replicate n false /\
  value (snd (increment_n n s)) = value s + Z.of_nat n /\
  max_possible (snd (increment_n n s)) = max_possible s.
Proof.
  revert s. induction n as [|n IH]; intros s H0 Hle Hm.
  - cbn. repeat split; lia.
  - cbn [increment_n]. rewrite increment_below by lia.
    set (s1 := if u8 (value s + 1) >? max_value s then _ else _).
    assert (E : u8 (value s + 1) = value s + 1)
      by (unfold u8; apply Z.mod_small; lia).
    assert (Hv : value s1 = value s + 1)
      by (subst s1; destruct (_ >? _); cbn; exact E).
    assert (Hp : max_possible s1 = max_possible s)
      by (subst s1; destruct (_ >? _); reflexivity).
    destruct (IH s1) as (F & V & P); try lia.
    destruct (increment_n n s1) as [ws s2]. cbn in *.
    subst ws. repeat split; lia.
Qed.

(** C2 (the code departs from the specification).  Three LEDs are assigned, then
    the operator writes 5 to [value] while [max_value] is still 0, then
    the counter is incremented once: [value] was below [max_possible], it
    becomes 6 and exceeds [max_value], but [max_value] is raised by one,
    to 1, and not to the new value 6. *)
Theorem increment_after_override_max_value_lags :
  let s1 := snd (gpio_leds_store hw_all_valid junk0 "5,6,7" 5 (initial_state false)) in
  let s2 := snd (value_store junk0 "5" 1 s1) in
  let s3 := snd (increment_maybe_wrap s2) in
  value s2 = 5 /\ max_value s2 = 0 /\ max_possible s2 = 7 /\
  fst (increment_maybe_wrap s2) = false /\
  value s3 = 6 /\ max_value s3 = 1 /\ max_value s3 <> value s3.
Proof. vm_compute. repeat split; discriminate. Qed.

(** C3: from value 0, [max_possible + 1] consecutive increments report no
    wrap on each of the first [max_possible] calls and a wrap on the last
    one only; the value is 0 afterwards and the wrapping call leaves
    [max_value] as it was before that call. *)
Theorem increment_wraps_once (s : state) :
  value s = 0 -> 0 <= max_possible s < 256 ->
  let m := Z.to_nat (max_possible s) in
  fst (increment_n (S m) s) = replicate m false ++ [true] /\
  value (snd (increment_n (S m) s)) = 0 /\
  max_value (snd (increment_n (S m) s)) = max_value (snd (increment_n m s)).
Proof.
  intros Hv Hm m.
  destruct (increment_n_below m s) as (F & V & P); try lia.
  rewrite increment_n_snoc. cbn [fst snd].
  rewrite increment_at_ceiling by lia. cbn [fst snd].
  rewrite F. repeat split; reflexivity.
Qed.

Lemma increment_wraps_once_witness :
  let s := set_max_possible 3 (initial_state true) in
  fst (increment_n 4 s) = [false; false; false; true] /\
  value (snd (increment_n 4 s)) = 0 /\
  max_value (snd (increment_n 4 s)) = max_value (snd (increment_n 3 s)).
Proof.
  apply (increment_wraps_once (set_max_possible 3 (initial_state true)));
    [reflexivity | cbn; lia].
Defined.

Lemma setup_loop_ones (n : nat) :
  (n <= 8)%nat ->
  Nat.iter n (fun m => u8 (Z.lor (Z.shiftl m 1) 1)) 0 = 2 ^ Z.of_nat n - 1.
Proof.
  intros H.
  do 9 (destruct n as [|n]; [reflexivity|]). lia.
Qed.

(** C8: [setup_max_possible] with [led_count] pins, [led_count] in
    [0, 8], sets [max_possible] to [2 ^ led_count - 1]; the value becomes
    0 when it exceeded the new ceiling and is kept otherwise; [max_value]
    is never changed. *)
Theorem setup_max_possible_spec (s : state) :
  0 <= led_count s <= 8 ->
  let s' := setup_max_possible s in
  max_possible s' = 2 ^ led_count s - 1 /\
  (value s > max_possible s' -> value s' = 0) /\
  (value s <= max_possible s' -> value s' = value s) /\
  (value s' = 0 <-> value s > max_possible s' \/ value s = 0) /\
  max_value s' = max_value s.
Proof.
  intros H. unfold setup_max_possible.
  rewrite setup_loop_ones by lia. rewrite Z2Nat.id by lia.
  cbn [value max_possible set_max_possible].
  destruct (Z.gtb_spec (value s) (2 ^ led_count s - 1)) as [G|G]; cbn; lia.
Qed.

Lemma setup_max_possible_spec_witness :
  let s := set_value 200 (set_led_count 3 (initial_state false)) in
  let s' := setup_max_possible s in
  max_possible s' = 2 ^ led_count s - 1 /\
  (value s > max_possible s' -> value s' = 0) /\
  (value s <= max_possible s' -> value s' = value s) /\
  (value s' = 0 <-> value s > max_possible s' \/ value s = 0) /\
  max_value s' = max_value s.
Proof.
  apply (setup_max_possible_spec
           (set_value 200 (set_led_count 3 (initial_state false)))).
  cbn. lia.
Defined.

(** ** What each loop leaves alone *)

Lemma issue_nil (s : state) : issue [] s = s.
Proof. destruct s. unfold issue. cbn. by rewrite app_nil_r. Qed.

Lemma issue_issue (cs1 cs2 : list gpio_call) (s : state) :
  issue cs2 (issue cs1 s) = issue (cs1 ++ cs2) s.
Proof. unfold issue. cbn. by rewrite app_assoc. Qed.

Lemma call_issue (c : gpio_call) (s : state) : call c s = issue [c] s.
Proof. reflexivity. Qed.

Lemma release_prior_issue (n : nat) (j : Z) (s : state) :
  exists cs, release_prior n j s = issue cs s.
Proof.
  revert j s. induction n as [|n IH]; intros j s.
  - exists []. by rewrite issue_nil.
  - cbn [release_prior]. rewrite !call_issue, issue_issue.
    destruct (IH (u8 (j + 1)) (issue ([GpioSetValue (gpio (led_at j s)) 0] ++
                                      [GpioFree (gpio (led_at j s))]) s))
      as [cs ->].
    rewrite issue_issue. eauto.
Qed.

Lemma unassign_loop_issue (n : nat) (i : Z) (s : state) :
  exists cs, unassign_loop n i s = issue cs s.
Proof.
  revert i s. induction n as [|n IH]; intros i s.
  - exists []. by rewrite issue_nil.
  - cbn [unassign_loop]. rewrite !call_issue, !issue_issue.
    match goal with |- context [unassign_loop n ?i' (issue ?c s)] =>
      destruct (IH i' (issue c s)) as [cs ->] end.
    rewrite issue_issue. eauto.
Qed.

Lemma drive_loop_issue (n : nat) (i : Z) (s : state) :
  exists cs, drive_loop n i s = issue cs s.
Proof.
  revert i s. induction n as [|n IH]; intros i s.
  - exists []. by rewrite issue_nil.
  - cbn [drive_loop]. rewrite call_issue.
    match goal with |- context [drive_loop n ?i' (issue ?c s)] =>
      destruct (IH i' (issue c s)) as [cs ->] end.
    rewrite issue_issue. eauto.
Qed.

Lemma init_leds_cases (hw : hardware) (junk : uninit) (n : nat) (i : Z) (s : state) :
  (exists cs, init_leds hw junk n i s = (0, issue cs s)) \/
  (exists cs, init_leds hw junk n i s = (- ENODEV, zero_counters (issue cs s))).
Proof.
  revert i s. induction n as [|n IH]; intros i s.
  - left. exists []. by rewrite issue_nil.
  - cbn [init_leds].
    destruct (gpio_is_valid hw (gpio (led_at i s))); cbn [negb].
    + rewrite call_issue.
      match goal with |- context [init_leds hw junk n ?i' (issue ?c s)] =>
        destruct (IH i' (issue c s)) as [[cs ->] | [cs ->]] end;
        rewrite issue_issue; eauto.
    + right.
      match goal with |- context [release_prior ?m ?j s] =>
        destruct (release_prior_issue m j s) as [cs ->] end.
      eauto.
Qed.

Lemma end_of_number_frame (junk : uninit) (d : string) (s : state) :
  exists n l,
    match end_of_number junk d s with
    | NumReturn _ s' | NumBreak s' | NumAdded s' => s' = leds_of n l s
    end.
Proof.
  unfold end_of_number.
  destruct (_ =? 0); [|destruct (_ >=? _)]; cbn.
  - exists 0, (led_values s). reflexivity.
  - exists (led_count s), (led_values s). by destruct s.
  - eexists _, _. reflexivity.
Qed.

Lemma leds_of_leds_of (n n' : Z) (l l' : list led) (s : state) :
  leds_of n' l' (leds_of n l s) = leds_of n' l' s.
Proof. reflexivity. Qed.

Lemma assign_leds_scan_frame (junk : uninit) (curr d : string) (s : state) :
  exists n l, scan_state (assign_leds_scan junk curr d s) = leds_of n l s.
Proof.
  assert (T : forall d s, exists n l,
             scan_state (at_terminator junk d s) = leds_of n l s).
  { intros d' s'. unfold at_terminator.
    destruct (end_of_number_frame junk d' s') as (n & l & H).
    destruct (end_of_number junk d' s'); subst; cbn; eauto. }
  revert d s. induction curr as [|c rest IH]; intros d s; cbn [assign_leds_scan].
  - apply T.
  - destruct (Ascii.eqb c zero); [apply T|].
    destruct (Ascii.eqb c ",").
    + destruct (end_of_number_frame junk d s) as (n & l & H).
      destruct (end_of_number junk d s) as [code s'|s'|s']; subst; cbn; eauto.
      destruct (IH EmptyString (leds_of n l s)) as (n' & l' & ->).
      rewrite leds_of_leds_of. eauto.
    + destruct (_ >=? _); cbn.
      * exists 0, (led_values s). reflexivity.
      * apply IH.
Qed.

Lemma set_leds_from_value_frame (s : state) :
  exists l cs, snd (set_leds_from_value s) = issue cs (set_led_values l s).
Proof.
  unfold set_leds_from_value. cbn [snd].
  destruct (enable_gpio _).
  - match goal with |- context [drive_loop ?n ?i ?s'] =>
      destruct (drive_loop_issue n i s') as [cs ->] end.
    eauto.
  - eexists _, []. by rewrite issue_nil.
Qed.

(** Replace the state after [set_leds_from_value] in the goal by the
    state before it, up to [led_values] and the calls issued. *)
Ltac leds_frame :=
  match goal with
  | |- context [set_leds_from_value ?x] =>
      let l := fresh "l" in
      let cs := fresh "cs" in
      destruct (set_leds_from_value_frame x) as (l & cs & ->)
  end.

(** ** The counter invariant *)

Lemma setup_loop_nonneg (n : nat) :
  0 <= Nat.iter n (fun m => u8 (Z.lor (Z.shiftl m 1) 1)) 0.
Proof.
  destruct n as [|n]; [cbn; lia|].
  rewrite Nat.iter_succ. unfold u8. apply Z.mod_pos_bound. lia.
Qed.

Lemma setup_max_possible_inv (s : state) :
  0 <= value s -> counter_inv (setup_max_possible s).
Proof.
  intros H. unfold setup_max_possible, counter_inv.
  pose proof (setup_loop_nonneg (Z.to_nat (led_count s))) as P.
  cbn [value max_possible set_max_possible].
  destruct (Z.gtb_spec (value s) (Nat.iter (Z.to_nat (led_count s))
              (fun m => u8 (Z.lor (Z.shiftl m 1) 1)) 0)); cbn; lia.
Qed.

Lemma increment_inv (s : state) :
  counter_inv s -> counter_inv (snd (increment_maybe_wrap s)).
Proof.
  unfold counter_inv. intros H.
  destruct (Z.lt_ge_cases (value s) (max_possible s)) as [L|L].
  - rewrite increment_below by lia. cbn [snd].
    assert (0 <= u8 (value s + 1) <= value s + 1).
    { unfold u8. split; [apply Z.mod_pos_bound; lia | apply Z.mod_le; lia]. }
    destruct (_ >? _); cbn; lia.
  - rewrite increment_at_ceiling by lia. cbn. lia.
Qed.

Lemma set_leds_from_value_inv (s : state) :
  counter_inv s -> counter_inv (snd (set_leds_from_value s)).
Proof.
  intros H. destruct (set_leds_from_value_frame s) as (l & cs & ->). exact H.
Qed.

Lemma assign_leds_inv (hw : hardware) (junk : uninit) (d : string) (s : state) :
  counter_inv s -> counter_inv (snd (assign_leds hw junk d s)).
Proof.
  intros H. unfold assign_leds.
  destruct (led_count s >? 0); [exact H|].
  destruct (assign_leds_scan_frame junk d EmptyString s) as (n & l & E).
  destruct (assign_leds_scan junk d EmptyString s) as [code s'|s1];
    cbn in E; subst; [exact H|].
  pose proof (setup_max_possible_inv (leds_of n l s)) as I.
  specialize (I ltac:(destruct H; exact H)).
  destruct (enable_gpio _); [|exact I].
  match goal with |- context [init_leds hw junk ?m ?i ?s'] =>
    destruct (init_leds_cases hw junk m i s') as [[cs ->] | [cs ->]] end.
  - exact I.
  - cbn. unfold counter_inv. cbn. lia.
Qed.

Lemma unassign_leds_inv (s : state) :
  counter_inv s -> counter_inv (snd (unassign_leds s)).
Proof.
  intros H. unfold unassign_leds. cbn [snd].
  destruct (enable_gpio s); [|exact H].
  destruct (unassign_loop_issue (Z.to_nat (led_count s)) 0 s) as [cs ->].
  exact H.
Qed.

Lemma button_store_inv (hw : hardware) (junk : uninit) (buf : string)
      (count : Z) (s : state) :
  counter_inv s ->
  counter_inv (snd (gpio_button_increment_store hw junk buf count s)).
Proof.
  intros H. unfold gpio_button_increment_store, assign_increment_button,
    unassign_increment_button. cbn [snd].
  destruct (enable_gpio s) eqn:E; cbn [snd].
  - destruct (gpio_increment_button s >? 0); cbn; rewrite E;
      destruct (gpio_is_valid hw _); cbn;
      try destruct (request_irq hw _ =? 0); cbn; exact H.
  - cbn. rewrite E. exact H.
Qed.

(** C7, counterexample: with no LED assigned the invariant holds
    ([0 <= 0 <= 0]); writing 5 to [value] gives [value = 5] above
    [max_possible = 0]. *)
Lemma value_store_breaks_counter_inv :
  counter_inv (initial_state false) /\
  ~ counter_inv (snd (value_store junk0 "5" 1 (initial_state false))).
Proof.
  split.
  - unfold counter_inv. cbn. lia.
  - unfold counter_inv. vm_compute. intros [_ H]. apply H. reflexivity.
Qed.

(** C7, amended: [0 <= value <= max_possible] is preserved by every
    operation of the core other than the write to [value]: increment,
    recomputing the ceiling, assigning and releasing the LED pins,
    re-encoding the LEDs, the button interrupt, and the writes to
    [max_value], [gpio_leds], [increment] and [gpio_button_increment]. *)
Theorem counter_inv_preserved (hw : hardware) (junk : uninit) (s : state) :
  counter_inv s ->
  counter_inv (snd (increment_maybe_wrap s)) /\
  counter_inv (setup_max_possible s) /\
  (forall d, counter_inv (snd (assign_leds hw junk d s))) /\
  counter_inv (snd (unassign_leds s)) /\
  counter_inv (snd (set_leds_from_value s)) /\
  (forall tv, counter_inv (button_irq_handler tv s)) /\
  (forall buf count, counter_inv (snd (max_value_store junk buf count s))) /\
  (forall buf count, counter_inv (snd (gpio_leds_store hw junk buf count s))) /\
  (forall buf count, counter_inv (snd (increment_store buf count s))) /\
  (forall buf count,
      counter_inv (snd (gpio_button_increment_store hw junk buf count s))).
Proof.
  intros H. repeat split_and.
  - by apply increment_inv.
  - apply setup_max_possible_inv. by destruct H.
  - intros d. by apply assign_leds_inv.
  - by apply unassign_leds_inv.
  - by apply set_leds_from_value_inv.
  - intros tv. unfold button_irq_handler.
    destruct (_ <? 200); [exact H|].
    apply set_leds_from_value_inv, increment_inv. exact H.
  - intros buf count. exact H.
  - intros buf count. unfold gpio_leds_store. cbn [snd].
    by apply set_leds_from_value_inv, assign_leds_inv, unassign_leds_inv.
  - intros buf count. unfold increment_store. cbn [snd].
    by apply set_leds_from_value_inv, increment_inv.
  - intros buf count. by apply button_store_inv.
Qed.

Lemma counter_inv_preserved_witness :
  let s := set_value 5 (snd (gpio_leds_store hw_no_77 junk0 "5,6,7" 5
                                             (initial_state true))) in
  let t := set_value 7 (snd (gpio_leds_store hw_no_77 junk0 "5,6,7" 5
                                             (initial_state true))) in
  (value s = 5 /\ max_possible s = 7 /\ led_count s = 3 /\
   value (snd (increment_maybe_wrap s)) = 6 /\
   value t = 7 /\ value (snd (increment_maybe_wrap t)) = 0) /\
  (counter_inv (snd (increment_maybe_wrap s)) /\
   counter_inv (setup_max_possible s) /\
   (forall d, counter_inv (snd (assign_leds hw_no_77 junk0 d s))) /\
   counter_inv (snd (unassign_leds s)) /\
   counter_inv (snd (set_leds_from_value s)) /\
   (forall tv, counter_inv (button_irq_handler tv s)) /\
   (forall buf count, counter_inv (snd (max_value_store junk0 buf count s))) /\
   (forall buf count, counter_inv (snd (gpio_leds_store hw_no_77 junk0 buf count s))) /\
   (forall buf count, counter_inv (snd (increment_store buf count s))) /\
   (forall buf count,
       counter_inv (snd (gpio_button_increment_store hw_no_77 junk0 buf count s)))) /\
  (counter_inv (snd (increment_maybe_wrap t)) /\
   (forall tv, counter_inv (button_irq_handler tv t)) /\
   (forall buf count, counter_inv (snd (gpio_leds_store hw_no_77 junk0 buf count t)))).
Proof.
  intros s t. split; [by vm_compute|]. split.
  - apply (counter_inv_preserved hw_no_77 junk0 s).
    unfold counter_inv. vm_compute. split; discriminate.
  - destruct (counter_inv_preserved hw_no_77 junk0 t)
      as (A & _ & _ & _ & _ & B & _ & C & _).
    + unfold counter_inv. vm_compute. split; discriminate.
    + split; [exact A|]. split; [exact B | exact C].
Defined.

(** ** LED encoder *)

Lemma low_bit_testbit (b : Z) : (Z.land b 1 =? 1) = Z.testbit b 0.
Proof.
  change 1 with (Z.ones 1) at 1. rewrite Z.land_ones by lia.
  change (2 ^ 1) with 2. rewrite <- Z.bit0_mod.
  by destruct (Z.testbit b 0).
Qed.

(** Entry [k] of the array after the first loop of [set_leds_from_value]
    run for [n] positions from position [i] on. *)
Lemma encode_loop_lookup (n : nat) (i bits : Z) (l : list led) (k : nat) :
  0 <= i ->
  encode_loop n i bits l !! k =
    if decide (Z.to_nat i <= k < Z.to_nat i + n)%nat
    then (fun e => Led (Z.testbit bits (Z.of_nat k - i)) (gpio e)) <$> l !! k
    else l !! k.
Proof.
  revert i bits l. induction n as [|n IH]; intros i bits l Hi.
  - cbn [encode_loop]. case_decide; [lia | reflexivity].
  - cbn [encode_loop]. rewrite IH by lia.
    replace (Z.to_nat (i + 1)) with (S (Z.to_nat i)) by lia.
    destruct (decide (k = Z.to_nat i)) as [->|Hk].
    + rewrite list_lookup_alter_eq.
      repeat case_decide; try lia.
      rewrite low_bit_testbit. replace (Z.of_nat (Z.to_nat i) - i) with 0 by lia.
      reflexivity.
    + rewrite list_lookup_alter_ne by lia.
      repeat case_decide; try lia; try reflexivity.
      rewrite Z.shiftr_spec by lia.
      replace (Z.of_nat k - (i + 1) + 1) with (Z.of_nat k - i) by lia.
      reflexivity.
Qed.

Lemma encode_loop_length (n : nat) (i bits : Z) (l : list led) :
  length (encode_loop n i bits l) = length l.
Proof.
  revert i bits l. induction n as [|n IH]; intros i bits l; cbn [encode_loop].
  - reflexivity.
  - rewrite IH. apply length_alter.
Qed.

Lemma drive_loop_calls (n : nat) (i : Z) (s : state) :
  drive_loop n i s =
    issue (map (fun k => GpioSetValue (gpio (led_at k s))
                                      (if on (led_at k s) then 1 else 0))
               (seqZ i (Z.of_nat n))) s.
Proof.
  revert i s. induction n as [|n IH]; intros i s.
  - cbn. by rewrite issue_nil.
  - cbn [drive_loop]. rewrite IH, call_issue, issue_issue.
    rewrite (seqZ_cons i (Z.of_nat (S n))) by lia.
    replace (Z.pred (Z.of_nat (S n))) with (Z.of_nat n) by lia.
    reflexivity.
Qed.

(** What [set_leds_from_value] does for any value: the first [led_count]
    entries get the bits of [value], low bit first, the pin numbers and
    the other entries are kept, and with GPIO enabled each assigned pin is
    driven to its bit, in ascending order. *)
Lemma set_leds_from_value_spec (s : state) :
  0 <= led_count s ->
  (Z.to_nat (led_count s) <= length (led_values s))%nat ->
  let s' := snd (set_leds_from_value s) in
  led_count s' = led_count s /\
  length (led_values s') = length (led_values s) /\
  (forall i, 0 <= i < led_count s ->
     led_at i s' = Led (Z.testbit (value s) i) (gpio (led_at i s))) /\
  (forall i, led_count s <= i -> led_at i s' = led_at i s) /\
  calls s' = calls s ++
    if enable_gpio s
    then map (fun i => GpioSetValue (gpio (led_at i s))
                                    (if Z.testbit (value s) i then 1 else 0))
             (seqZ 0 (led_count s))
    else [].
Proof.
  intros Hn Hlen s'.
  set (l' := encode_loop (Z.to_nat (led_count s)) 0 (value s) (led_values s)).
  assert (Hin : forall i, 0 <= i < led_count s ->
            l' !!! Z.to_nat i = Led (Z.testbit (value s) i) (gpio (led_at i s))).
  { intros i Hi. apply list_lookup_total_correct. subst l'.
    rewrite encode_loop_lookup by lia.
    case_decide; [|lia].
    destruct (lookup_lt_is_Some_2 (led_values s) (Z.to_nat i)) as [e He]; [lia|].
    rewrite He. cbn. unfold led_at.
    rewrite (list_lookup_total_correct _ _ _ He).
    by replace (Z.of_nat (Z.to_nat i) - 0) with i by lia. }
  assert (Hout : forall i, led_count s <= i ->
            l' !!! Z.to_nat i = led_values s !!! Z.to_nat i).
  { intros i Hi. rewrite !list_lookup_total_alt. subst l'.
    rewrite encode_loop_lookup by lia.
    case_decide; [lia | reflexivity]. }
  assert (Hs' : s' = issue (if enable_gpio s
                            then map (fun i => GpioSetValue (gpio (led_at i s))
                                       (if Z.testbit (value s) i then 1 else 0))
                                     (seqZ 0 (led_count s))
                            else []) (set_led_values l' s)).
  { subst s'. unfold set_leds_from_value. cbn [snd enable_gpio set_led_values].
    fold l'. destruct (enable_gpio s); [|by rewrite issue_nil].
    rewrite drive_loop_calls. cbn [led_count set_led_values].
    rewrite Z2Nat.id by lia. f_equal.
    apply map_ext_in. intros i Hi.
    apply list_elem_of_In, elem_of_seqZ in Hi.
    unfold led_at at 1 2. cbn [led_values set_led_values].
    rewrite Hin by lia. reflexivity. }
  rewrite Hs'. cbn. repeat split.
  - subst l'. apply encode_loop_length.
  - exact Hin.
  - exact Hout.
Qed.

(** C9: with [N = led_count] pins, [N] in [0, 8], and a value [v] in
    [0, 2 ^ N - 1], [set_leds_from_value] sets exactly the positions
    [0 .. N-1], and position [i] is on iff bit [i] of [v] is set (least
    significant bit first); the positions from [N] on are not touched.
    With GPIO enabled the [N] pins are then driven to these levels. *)
Theorem set_leds_from_value_encodes (s : state) :
  0 <= led_count s <= 8 ->
  length (led_values s) = 8%nat ->
  0 <= value s < 2 ^ led_count s ->
  let s' := snd (set_leds_from_value s) in
  led_count s' = led_count s /\
  (forall i, 0 <= i < led_count s ->
     (on (led_at i s') = true <-> Z.testbit (value s) i = true) /\
     gpio (led_at i s') = gpio (led_at i s)) /\
  (forall i, led_count s <= i -> led_at i s' = led_at i s) /\
  calls s' = calls s ++
    if enable_gpio s
    then map (fun i => GpioSetValue (gpio (led_at i s))
                                    (if Z.testbit (value s) i then 1 else 0))
             (seqZ 0 (led_count s))
    else [].
Proof.
  intros Hn Hlen Hv s'.
  destruct (set_leds_from_value_spec s) as (C & _ & I & O & K); [lia | lia |].
  fold s' in C, I, O, K. repeat split; try done.
  - rewrite I by done. cbn. done.
  - rewrite I by done. cbn. done.
  - rewrite I by done. reflexivity.
Qed.

Lemma set_leds_from_value_encodes_witness :
  let s := set_value 5 (set_led_count 3 (initial_state true)) in
  let s' := snd (set_leds_from_value s) in
  led_count s' = led_count s /\
  (forall i, 0 <= i < led_count s ->
     (on (led_at i s') = true <-> Z.testbit (value s) i = true) /\
     gpio (led_at i s') = gpio (led_at i s)) /\
  (forall i, led_count s <= i -> led_at i s' = led_at i s) /\
  calls s' = calls s ++
    if enable_gpio s
    then map (fun i => GpioSetValue (gpio (led_at i s))
                                    (if Z.testbit (value s) i then 1 else 0))
             (seqZ 0 (led_count s))
    else [].
Proof.
  apply (set_leds_from_value_encodes
           (set_value 5 (set_led_count 3 (initial_state true))));
    [cbn; lia | reflexivity | cbn; lia].
Defined.

(** ** Writing numbers through sysfs *)

Lemma uint_val_of_uint_acc (d : Decimal.uint) (p : positive) :
  Z.pos (Pos.of_uint_acc d p) = uint_val d (Z.pos p).
Proof.
  revert p. induction d; intros p; cbn [Pos.of_uint_acc uint_val];
    try reflexivity; rewrite IHd; f_equal; lia.
Qed.

Lemma uint_val_of_uint (d : Decimal.uint) :
  Z.of_N (N.of_uint d) = uint_val d 0.
Proof.
  unfold N.of_uint.
  induction d; cbn [Pos.of_uint uint_val]; try reflexivity; try exact IHd;
    cbn [Z.of_N]; rewrite uint_val_of_uint_acc; reflexivity.
Qed.

Lemma step_congr (acc acc' dv : Z) :
  acc mod 2 ^ 32 = acc' mod 2 ^ 32 ->
  u64 (acc * 10 + dv) mod 2 ^ 32 = (acc' * 10 + dv) mod 2 ^ 32.
Proof.
  intros H. unfold u64.
  rewrite Z.mod_mod_divide by (by exists (2 ^ 32)).
  rewrite <- (Z.add_mod_idemp_l (acc * 10)), <- (Z.mul_mod_idemp_l acc), H by lia.
  rewrite Z.mul_mod_idemp_l, Z.add_mod_idemp_l by lia. reflexivity.
Qed.

(** [strtoull] on the text of a numeral followed by something that is not
    a digit computes the numeral, up to the 64-bit wrap-around. *)
Lemma strtoull_numeral (d : Decimal.uint) (rest : string) (acc acc' : Z) :
  starts_with_digit rest = false ->
  acc mod 2 ^ 32 = acc' mod 2 ^ 32 ->
  strtoull (NilEmpty.string_of_uint d ++ rest) acc mod 2 ^ 32 =
  uint_val d acc' mod 2 ^ 32.
Proof.
  intros Hr. revert acc acc'.
  induction d; intros acc acc' H;
    cbn [NilEmpty.string_of_uint uint_val String.append strtoull];
    try (change (isdigit _) with true; cbv iota; apply IHd, step_congr, H).
  destruct rest as [|c r]; cbn [strtoull]; [exact H|].
  cbn in Hr. rewrite Hr. exact H.
Qed.

Lemma sscanf_u_decimal (t : N) (rest : string) :
  starts_with_digit rest = false ->
  exists x, sscanf_u (decimal t ++ rest) = Some (u32 x) /\
            x mod 2 ^ 32 = Z.of_N t mod 2 ^ 32.
Proof.
  intros Hr. exists (strtoull (decimal t ++ rest) 0). split.
  - unfold sscanf_u, decimal.
    assert (N.to_uint t <> Decimal.Nil) as Hnil.
    { destruct t; [discriminate | apply DecimalPos.Unsigned.to_uint_nonnil]. }
    destruct (N.to_uint t); try congruence; reflexivity.
  - unfold decimal.
    rewrite (strtoull_numeral _ rest 0 0 Hr eq_refl).
    rewrite <- uint_val_of_uint, DecimalN.Unsigned.of_to. reflexivity.
Qed.

Lemma u8_u32 (x y : Z) : x mod 2 ^ 32 = y mod 2 ^ 32 -> u8 (u32 x) = y mod 256.
Proof.
  intros H. unfold u8, u32. rewrite H.
  apply Z.mod_mod_divide. by exists (2 ^ 24).
Qed.

(** C10: writing the decimal text of any number [t] (followed by the end
    of the text, a newline or anything that is not a digit) to [value] or
    to [max_value] stores [t mod 256] in the field, and the write returns
    [count], that is, success. *)
Theorem counter_stores_truncate (junk : uninit) (t : N) (rest : string)
        (count : Z) (s : state) :
  starts_with_digit rest = false ->
  fst (value_store junk (decimal t ++ rest) count s) = count /\
  value (snd (value_store junk (decimal t ++ rest) count s)) = Z.of_N t mod 256 /\
  fst (max_value_store junk (decimal t ++ rest) count s) = count /\
  max_value (snd (max_value_store junk (decimal t ++ rest) count s)) = Z.of_N t mod 256.
Proof.
  intros Hr. destruct (sscanf_u_decimal t rest Hr) as (x & Hx & Hm).
  unfold value_store, max_value_store, scan_t. rewrite Hx. cbn [fst snd].
  split; [reflexivity|]. split; [|split; [reflexivity|]].
  - leds_frame.
    cbn. by apply u8_u32.
  - cbn. by apply u8_u32.
Qed.

Lemma counter_stores_truncate_witness :
  let buf := (decimal 300 ++ String (ascii_of_nat 10) EmptyString)%string in
  let s := initial_state false in
  fst (value_store junk0 buf 4 s) = 4 /\
  value (snd (value_store junk0 buf 4 s)) = 44 /\
  fst (max_value_store junk0 buf 4 s) = 4 /\
  max_value (snd (max_value_store junk0 buf 4 s)) = 44.
Proof.
  apply (counter_stores_truncate junk0 300
           (String (ascii_of_nat 10) EmptyString) 4 (initial_state false)).
  reflexivity.
Defined.

(** ** LED acquisition *)

(** With GPIO enabled, the state reached when [init_leds] meets an
    invalid pin keeps [led_count]: only the counters are zeroed. *)
Lemma init_leds_led_count (hw : hardware) (junk : uninit) (n : nat) (i : Z)
      (s : state) :
  led_count (snd (init_leds hw junk n i s)) = led_count s.
Proof.
  destruct (init_leds_cases hw junk n i s) as [[cs ->] | [cs ->]]; reflexivity.
Qed.

(** Meeting an invalid pin makes [init_leds] fail with [-ENODEV] and
    zero [value] and [max_possible]. *)
Lemma init_leds_invalid (hw : hardware) (junk : uninit) (n : nat) (i : Z)
      (s : state) :
  (exists k, (k < n)%nat /\
             gpio_is_valid hw (gpio (led_at (i + Z.of_nat k) s)) = false) ->
  0 <= i -> i + Z.of_nat n <= 256 ->
  fst (init_leds hw junk n i s) = - ENODEV /\
  value (snd (init_leds hw junk n i s)) = 0 /\
  max_possible (snd (init_leds hw junk n i s)) = 0.
Proof.
  revert i s. induction n as [|n IH]; intros i s (k & Hk & Hv) Hi Hn; [lia|].
  cbn [init_leds].
  destruct (gpio_is_valid hw (gpio (led_at i s))) eqn:E; cbn [negb].
  - destruct k as [|k]; [rewrite Z.add_0_r in Hv; congruence|].
    assert (U : u8 (i + 1) = i + 1) by (unfold u8; apply Z.mod_small; lia).
    rewrite U. apply IH; [|lia|lia].
    exists k. split; [lia|].
    replace (i + 1 + Z.of_nat k) with (i + Z.of_nat (S k)) by lia. exact Hv.
  - done.
Qed.

(** C1 (the code departs from the specification).  GPIO is enabled, no LED is
    assigned, pin 77 is invalid and the descriptor is ["5,6,77,8"], so the
    first invalid pin has index 2.  [assign_leds] returns [-ENODEV] and
    zeroes [value] and [max_possible], but whatever the release loop reads
    from its uninitialised [j], [led_count] stays 4: the assignment is not
    left empty.  The pins released depend on that [j]: with [j = 0] pins 5
    and 6 are driven off and freed, with [j = 1] pin 5 stays configured,
    with [j = 200] both stay configured. *)
Theorem assign_leds_invalid_pin_not_rolled_back :
  (forall j,
     let r := assign_leds hw_no_77 (Uninit j (fun _ => 0) 0) "5,6,77,8"
                          (initial_state true) in
     fst r = - ENODEV /\ value (snd r) = 0 /\ max_possible (snd r) = 0 /\
     led_count (snd r) = 4) /\
  calls (snd (assign_leds hw_no_77 (Uninit 0 (fun _ => 0) 0) "5,6,77,8"
                          (initial_state true))) =
    [GpioDirectionOutput 5 0; GpioDirectionOutput 6 0;
     GpioSetValue 5 0; GpioFree 5; GpioSetValue 6 0; GpioFree 6] /\
  calls (snd (assign_leds hw_no_77 (Uninit 1 (fun _ => 0) 0) "5,6,77,8"
                          (initial_state true))) =
    [GpioDirectionOutput 5 0; GpioDirectionOutput 6 0;
     GpioSetValue 6 0; GpioFree 6] /\
  calls (snd (assign_leds hw_no_77 (Uninit 200 (fun _ => 0) 0) "5,6,77,8"
                          (initial_state true))) =
    [GpioDirectionOutput 5 0; GpioDirectionOutput 6 0].
Proof.
  split; [|by vm_compute].
  intros j r.
  set (s2 := set_max_possible 15 (leds_of 4 [Led false 5; Led false 6;
               Led false 77; Led false 8; Led false 0; Led false 0;
               Led false 0; Led false 0] (initial_state true))).
  assert (E : r = init_leds hw_no_77 (Uninit j (fun _ => 0) 0) 4 0 s2)
    by reflexivity.
  rewrite E. clear E r.
  destruct (init_leds_invalid hw_no_77 (Uninit j (fun _ => 0) 0) 4 0 s2)
    as (F & V & P); [exists 2%nat; split; [lia | reflexivity] | lia | lia |].
  rewrite init_leds_led_count. done.
Qed.

(** ** Button assignment through sysfs *)

(** C6, counterexample: GPIO enabled, pin 77 invalid, ["77"] written to
    [gpio_button_increment].  The assignment fails with [-EINVAL], yet the
    write returns 2, the number of bytes, which is success for the writer,
    and pin 77 stays stored as the button pin. *)
Lemma button_store_failure_not_reported :
  let s := initial_state true in
  let r := gpio_button_increment_store hw_no_77 junk0 "77" 2 s in
  fst (assign_increment_button hw_no_77 (button_store_attempt junk0 "77" s))
    = - EINVAL /\
  ~ (fst r < 0 /\ gpio_increment_button (snd r) = 0) /\
  fst r = 2 /\ gpio_increment_button (snd r) = 77.
Proof.
  vm_compute. repeat split; try reflexivity.
  intros [H _]. discriminate H.
Qed.

(** C6, amended: when the assignment requested by a write to
    [gpio_button_increment] fails, the failure is not reported to the
    writer: the write still returns [count], that is, success.  The
    failure is either an invalid pin, answered [-EINVAL] by
    [assign_increment_button] before anything is asked of the hardware, or
    a refused [request_irq], whose result is the answer: the refused
    request is then the last call made, so the failed attempt registers no
    interrupt handler. *)
Theorem button_store_failure (hw : hardware) (junk : uninit) (buf : string)
        (count : Z) (s : state) :
  let s2 := button_store_attempt junk buf s in
  let r := gpio_button_increment_store hw junk buf count s in
  let pin := u8 (scan_t junk buf) in
  let irq := u32 (gpio_to_irq hw pin) in
  fst (assign_increment_button hw s2) <> 0 ->
  fst r = count /\
  (gpio_is_valid hw pin = false /\
   fst (assign_increment_button hw s2) = - EINVAL /\
   calls (snd r) = calls s2
   \/
   gpio_is_valid hw pin = true /\
   request_irq hw irq <> 0 /\
   fst (assign_increment_button hw s2) = request_irq hw irq /\
   calls (snd r) = calls s2 ++
     [GpioDirectionInput pin; GpioSetDebounce pin 200;
      RequestIrq irq (request_irq hw irq)]).
Proof.
  intros s2 r pin irq.
  assert (Er : r = (count, snd (assign_increment_button hw s2))) by reflexivity.
  assert (Ep : gpio_increment_button s2 = pin) by reflexivity.
  rewrite Er. cbn [fst snd]. clear Er r.
  unfold assign_increment_button. rewrite Ep.
  destruct (enable_gpio s2); [|cbn; congruence].
  destruct (gpio_is_valid hw pin); cbn [negb fst snd].
  - cbn [gpio_increment_button call increment_irq set_increment_irq].
    rewrite Ep. fold irq.
    destruct (Z.eqb_spec (request_irq hw irq) 0) as [Z0|Z0]; cbn [negb fst snd].
    + congruence.
    + intros _. split; [reflexivity|]. right.
      repeat split; try done.
      cbn [calls call set_increment_irq]. by rewrite <- !app_assoc.
  - intros _. split; [reflexivity|]. left. done.
Qed.

Lemma button_store_failure_witness :
  let s := initial_state true in
  let r := gpio_button_increment_store hw_no_77 junk0 "77" 2 s in
  fst r = 2 /\ calls (snd r) = [].
Proof.
  intros s r.
  destruct (button_store_failure hw_no_77 junk0 "77" 2 (initial_state true))
    as (A & [(_ & _ & B) | (V & _)]); [vm_compute; discriminate | |].
  - split; [exact A | exact B].
  - discriminate V.
Defined.

(** ** Scanning the LED descriptor *)

Lemma string_length_snoc (s : string) (c : ascii) :
  String.length (s ++ String c EmptyString) = S (String.length s).
Proof. induction s as [|a s IH]; cbn; [reflexivity | by rewrite IH]. Qed.

Lemma fields_from_head (r cur : string) :
  exists f rest, fields_from r cur = f :: rest /\
                 (String.length cur <= String.length f)%nat.
Proof.
  revert cur. induction r as [|c r IH]; intros cur; cbn [fields_from].
  - eauto.
  - destruct (Ascii.eqb c zero); [eauto|].
    destruct (Ascii.eqb c ","); [eauto|].
    destruct (IH (cur ++ String c EmptyString)%string) as (f & rest & E & L).
    rewrite string_length_snoc in L. exists f, rest. split; [exact E | lia].
Qed.

Lemma end_of_number_fields (junk : uninit) (d : string) (s : state) :
  (String.length d <= 3)%nat ->
  end_of_number junk d s =
    if bad_field d then NumReturn (- EINVAL) (set_led_count 0 s)
    else if led_count s >=? MAX_LEDS then NumBreak s
    else NumAdded (add_led junk d s).
Proof.
  intros H. unfold end_of_number, bad_field.
  destruct (String.length d) as [|n] eqn:E; [reflexivity|].
  replace (Z.of_nat (S n) =? 0) with false by (symmetry; apply Z.eqb_neq; lia).
  replace (3 <? S n)%nat with false by (symmetry; apply Nat.ltb_ge; lia).
  reflexivity.
Qed.

(** The character loop and the field-by-field reading agree. *)
Lemma assign_leds_scan_fields (junk : uninit) (curr d : string) (s : state) :
  (String.length d <= 3)%nat ->
  assign_leds_scan junk curr d s = parse_fields junk (fields_from curr d) s.
Proof.
  assert (T : forall d s, (String.length d <= 3)%nat ->
             at_terminator junk d s = parse_fields junk [d] s).
  { intros d' s' H. unfold at_terminator. rewrite end_of_number_fields by done.
    cbn [parse_fields]. destruct (bad_field d'); [done|].
    by destruct (led_count s' >=? MAX_LEDS). }
  revert d s. induction curr as [|c rest IH]; intros d s H;
    cbn [assign_leds_scan fields_from].
  - by apply T.
  - destruct (Ascii.eqb c zero); [by apply T|].
    destruct (Ascii.eqb c ",").
    + rewrite end_of_number_fields by done. cbn [parse_fields].
      destruct (bad_field d); [done|].
      destruct (led_count s >=? MAX_LEDS); [done|].
      apply IH. cbn. lia.
    + destruct (Z.geb_spec (Z.of_nat (String.length d)) GPIO_MAX_DIGITS) as [G|G];
        unfold GPIO_MAX_DIGITS in G.
      * destruct (fields_from_head rest (d ++ String c EmptyString)%string)
          as (f & fs & -> & L).
        rewrite string_length_snoc in L. cbn [parse_fields].
        unfold bad_field.
        replace (3 <? String.length f)%nat with true
          by (symmetry; apply Nat.ltb_lt; lia).
        by rewrite orb_true_r.
      * apply IH. rewrite string_length_snoc. lia.
Qed.

Lemma add_led_count (junk : uninit) (f : string) (s : state) :
  0 <= led_count s < 8 -> led_count (add_led junk f s) = led_count s + 1.
Proof. intros H. cbn. unfold u8. apply Z.mod_small. lia. Qed.

(** A malformed field among those that are read stops the scan with
    [-EINVAL] and no LED assigned.  With [led_count] slots filled the
    fields read are the next [9 - led_count] ones. *)
Lemma parse_fields_bad (junk : uninit) (fs : list string) (s : state) :
  0 <= led_count s <= 8 ->
  Exists (fun f => bad_field f = true) (take (Z.to_nat (9 - led_count s)) fs) ->
  exists s', parse_fields junk fs s = ScanReturn (- EINVAL) s' /\ led_count s' = 0.
Proof.
  revert s. induction fs as [|f fs IH]; intros s Hc Hex.
  - rewrite take_nil in Hex. by apply Exists_nil in Hex.
  - replace (Z.to_nat (9 - led_count s)) with (S (Z.to_nat (8 - led_count s)))
      in Hex by lia.
    cbn [take] in Hex. cbn [parse_fields].
    destruct (bad_field f) eqn:B; [eauto|].
    apply Exists_cons in Hex as [Hex|Hex]; [congruence|].
    destruct (Z.geb_spec (led_count s) MAX_LEDS) as [G|G]; unfold MAX_LEDS in G.
    + replace (Z.to_nat (8 - led_count s)) with 0%nat in Hex by lia.
      by apply Exists_nil in Hex.
    + apply IH; rewrite add_led_count by lia; [lia|].
      by replace (9 - (led_count s + 1)) with (8 - led_count s) by lia.
Qed.

(** Without a malformed field among those that are read, the scan ends
    normally: the fields fill the free slots in order, up to the eighth
    slot, and the rest is dropped. *)
Lemma parse_fields_good (junk : uninit) (fs : list string) (s : state) :
  0 <= led_count s <= 8 ->
  length (led_values s) = 8%nat ->
  Forall (fun f => bad_field f = false) (take (Z.to_nat (9 - led_count s)) fs) ->
  exists s',
    parse_fields junk fs s = ScanDone s' /\
    led_count s' = Z.min (led_count s + Z.of_nat (length fs)) 8 /\
    length (led_values s') = 8%nat /\
    (forall k, (k < Z.to_nat (led_count s))%nat ->
       led_values s' !! k = led_values s !! k) /\
    (forall k f, fs !! k = Some f -> led_count s + Z.of_nat k < 8 ->
       led_values s' !! (Z.to_nat (led_count s) + k)%nat =
         Some (led_of_field junk (led_count s + Z.of_nat k) f)).
Proof.
  revert s. induction fs as [|f fs IH]; intros s Hc Hl Hall.
  - exists s. cbn [parse_fields length]. split; [done|]. split; [lia|].
    split; [done|]. split; [done|].
    intros k f Hf. by rewrite lookup_nil in Hf.
  - replace (Z.to_nat (9 - led_count s)) with (S (Z.to_nat (8 - led_count s)))
      in Hall by lia.
    cbn [take] in Hall. apply Forall_cons in Hall as [B Hall].
    cbn [parse_fields]. rewrite B.
    destruct (Z.geb_spec (led_count s) MAX_LEDS) as [G|G]; unfold MAX_LEDS in G.
    + exists s. split; [done|]. split; [cbn [length]; lia|].
      split; [done|]. split; [done|].
      intros k f' _ Hk. lia.
    + destruct (IH (add_led junk f s)) as (s' & E & C & L & P & Q).
      * rewrite add_led_count by lia. lia.
      * cbn. by rewrite length_insert.
      * rewrite add_led_count by lia.
        by replace (9 - (led_count s + 1)) with (8 - led_count s) by lia.
      * rewrite add_led_count in C, P, Q by lia.
        assert (Hfirst : led_values s' !! Z.to_nat (led_count s) =
                         Some (led_of_field junk (led_count s) f)).
        { rewrite P by lia. cbn. apply list_lookup_insert_eq. lia. }
        exists s'. split; [exact E|]. split; [cbn [length]; lia|].
        split; [exact L|]. split.
        -- intros k Hk. rewrite P by lia. cbn.
           apply list_lookup_insert_ne. lia.
        -- intros [|k] f' Hf Hk.
           ++ cbn in Hf. injection Hf as <-.
              rewrite Nat.add_0_r, Z.add_0_r. exact Hfirst.
           ++ cbn in Hf. specialize (Q k f' Hf ltac:(lia)).
              replace (Z.to_nat (led_count s) + S k)%nat
                with (Z.to_nat (led_count s + 1) + k)%nat by lia.
              replace (led_count s + Z.of_nat (S k))
                with (led_count s + 1 + Z.of_nat k) by lia.
              exact Q.
Qed.

(** C4, counterexample: eight well-formed fields followed by a remainder
    that starts with an empty field, or with a field of four digits.  The
    scan does not stop after the eighth field: it returns [-EINVAL] and
    leaves [led_count] at 0 instead of keeping the first eight pins. *)
Lemma remainder_after_eight_fields_is_scanned :
  let r1 := assign_leds hw_all_valid junk0 "1,2,3,4,5,6,7,8,,9" (initial_state false) in
  let r2 := assign_leds hw_all_valid junk0 "1,2,3,4,5,6,7,8,1234" (initial_state false) in
  take 8 (fields "1,2,3,4,5,6,7,8,,9") = ["1"; "2"; "3"; "4"; "5"; "6"; "7"; "8"]%string /\
  take 8 (fields "1,2,3,4,5,6,7,8,1234") = ["1"; "2"; "3"; "4"; "5"; "6"; "7"; "8"]%string /\
  fst r1 = - EINVAL /\ led_count (snd r1) = 0 /\ led_count (snd r1) <> 8 /\
  fst r2 = - EINVAL /\ led_count (snd r2) = 0 /\ led_count (snd r2) <> 8.
Proof. vm_compute. repeat split; discriminate. Qed.

(** C4, amended: the scan reads the descriptor field by field, the ninth
    field included.  If one of the first nine fields is empty (consecutive
    commas, a leading or trailing comma, an empty descriptor) or longer
    than three characters, [assign_leds] returns [-EINVAL] and leaves
    [led_count] at 0.  Otherwise the scan succeeds: the first eight fields
    at most are assigned, in order and switched off, and everything after
    the ninth field is ignored, whatever it contains. *)
Theorem assign_leds_scan_spec (hw : hardware) (junk : uninit) (d : string)
        (s : state) :
  led_count s = 0 ->
  length (led_values s) = 8%nat ->
  (Exists (fun f => bad_field f = true) (take 9 (fields d)) ->
     fst (assign_leds hw junk d s) = - EINVAL /\
     led_count (snd (assign_leds hw junk d s)) = 0) /\
  (Forall (fun f => bad_field f = false) (take 9 (fields d)) ->
     exists s',
       assign_leds_scan junk d EmptyString s = ScanDone s' /\
       led_count s' = Z.min (Z.of_nat (length (fields d))) 8 /\
       (forall k f, (k < 8)%nat -> fields d !! k = Some f ->
          led_values s' !! k = Some (led_of_field junk (Z.of_nat k) f)) /\
       (enable_gpio s = false ->
          assign_leds hw junk d s = (0, setup_max_possible s'))).
Proof.
  intros Hc Hl.
  assert (Hscan : assign_leds_scan junk d EmptyString s =
                  parse_fields junk (fields d) s)
    by (apply assign_leds_scan_fields; cbn; lia).
  split.
  - intros Hex.
    destruct (parse_fields_bad junk (fields d) s) as (s' & E & C);
      [lia | by rewrite Hc |].
    unfold assign_leds. rewrite Hc, Hscan, E. done.
  - intros Hall.
    destruct (parse_fields_good junk (fields d) s) as (s' & E & C & L & P & Q);
      [lia | done | by rewrite Hc |].
    exists s'. rewrite Hscan. split; [exact E|].
    rewrite Hc in C, Q. split; [rewrite C; f_equal; lia|]. split.
    + intros k f Hk Hf. specialize (Q k f Hf ltac:(lia)).
      replace (0 + Z.of_nat k) with (Z.of_nat k) in Q by lia. exact Q.
    + intros Hg. unfold assign_leds. rewrite Hc, Hscan, E.
      change (0 >? 0) with false. cbv iota.
      destruct (assign_leds_scan_frame junk d EmptyString s) as (n & l & F).
      rewrite Hscan, E in F. cbn in F.
      assert (G : enable_gpio (setup_max_possible s') = false).
      { rewrite F. unfold setup_max_possible.
        destruct (_ >? _); cbn; exact Hg. }
      by rewrite G.
Qed.

Lemma assign_leds_scan_spec_witness :
  (fst (assign_leds hw_all_valid junk0 "5,,12" (initial_state false)) = - EINVAL /\
   led_count (snd (assign_leds hw_all_valid junk0 "5,,12" (initial_state false))) = 0) /\
  exists s',
    assign_leds_scan junk0 "5,12,200" EmptyString (initial_state false) = ScanDone s' /\
    led_count s' = Z.min (Z.of_nat (length (fields "5,12,200"))) 8 /\
    (forall k f, (k < 8)%nat -> fields "5,12,200" !! k = Some f ->
       led_values s' !! k = Some (led_of_field junk0 (Z.of_nat k) f)) /\
    (enable_gpio (initial_state false) = false ->
       assign_leds hw_all_valid junk0 "5,12,200" (initial_state false) =
         (0, setup_max_possible s')).
Proof.
  split.
  - apply (assign_leds_scan_spec hw_all_valid junk0 "5,,12" (initial_state false));
      [reflexivity | reflexivity |].
    vm_compute. apply Exists_cons_tl, Exists_cons_hd. reflexivity.
  - apply (assign_leds_scan_spec hw_all_valid junk0 "5,12,200" (initial_state false));
      [reflexivity | reflexivity |].
    vm_compute. repeat constructor.
Defined.

(** The examples of the specification: ["5,12,200"] assigns pins 5, 12
    and 200; ["5,,12"], ["1234"], the empty descriptor and descriptors
    with a leading or trailing comma are refused with nothing assigned;
    of nine fields the first eight are assigned, and what follows the
    ninth field is not looked at. *)
Lemma assign_leds_examples :
  (fst (run_desc "5,12,200") = 0 /\ assigned_pins (run_desc "5,12,200") = [5; 12; 200]) /\
  (fst (run_desc "5,,12") = - EINVAL /\ assigned_pins (run_desc "5,,12") = []) /\
  (fst (run_desc "1234") = - EINVAL /\ assigned_pins (run_desc "1234") = []) /\
  (fst (run_desc "") = - EINVAL /\ assigned_pins (run_desc "") = []) /\
  (fst (run_desc ",5") = - EINVAL /\ assigned_pins (run_desc ",5") = []) /\
  (fst (run_desc "5,") = - EINVAL /\ assigned_pins (run_desc "5,") = []) /\
  (fst (run_desc "1,2,3,4,5,6,7,8,9") = 0 /\
   assigned_pins (run_desc "1,2,3,4,5,6,7,8,9") = [1; 2; 3; 4; 5; 6; 7; 8]) /\
  (fst (run_desc "1,2,3,4,5,6,7,8,9,,12345,") = 0 /\
   assigned_pins (run_desc "1,2,3,4,5,6,7,8,9,,12345,") = [1; 2; 3; 4; 5; 6; 7; 8]).
Proof. vm_compute. repeat split. Qed.

(** * Further properties of the module *)

(** ** The counter over many increments *)

Lemma increment_max_value_le (s : state) :
  0 <= max_value s ->
  max_value s <= max_value (snd (increment_maybe_wrap s)).
Proof.
  intros H. unfold increment_maybe_wrap.
  destruct (value s <? max_possible s); cbn; [|lia].
  destruct (Z.gtb_spec (u8 (value s + 1)) (max_value s)) as [G|G]; cbn; [|lia].
  assert (u8 (value s + 1) < 256) by (unfold u8; apply Z.mod_pos_bound; lia).
  unfold u8 at 1. rewrite Z.mod_small by lia. lia.
Qed.

(** [max_value] never decreases, however many times the counter is
    incremented and however often it wraps. *)
Theorem max_value_monotone (n : nat) (s : state) :
  0 <= max_value s ->
  max_value s <= max_value (snd (increment_n n s)).
Proof.
  revert s. induction n as [|n IH]; intros s H; cbn [increment_n].
  - cbn. lia.
  - pose proof (increment_max_value_le s H) as L.
    destruct (increment_maybe_wrap s) as [w s1]. cbn [snd] in L.
    specialize (IH s1 ltac:(lia)).
    destruct (increment_n n s1) as [ws s2]. cbn [snd] in *. lia.
Qed.

Lemma max_value_monotone_witness :
  max_value (set_max_value 3 (initial_state true))
  <= max_value (snd (increment_n 5 (set_max_value 3 (initial_state true)))).
Proof.
  apply (max_value_monotone 5 (set_max_value 3 (initial_state true))).
  cbn. lia.
Defined.

Lemma increment_high_water (s : state) :
  0 <= value s <= max_value s ->
  0 <= value (snd (increment_maybe_wrap s))
    <= max_value (snd (increment_maybe_wrap s)).
Proof.
  intros H. unfold increment_maybe_wrap.
  destruct (value s <? max_possible s); cbn; [|lia].
  assert (0 <= u8 (value s + 1) <= value s + 1).
  { unfold u8. split; [apply Z.mod_pos_bound; lia | apply Z.mod_le; lia]. }
  assert (u8 (value s + 1) < 256) by (unfold u8; apply Z.mod_pos_bound; lia).
  destruct (Z.gtb_spec (u8 (value s + 1)) (max_value s)) as [G|G]; cbn; [|lia].
  unfold u8 at 3. rewrite Z.mod_small by lia. lia.
Qed.

(** As long as the operator has not put [value] above [max_value], the
    increments keep [max_value] at or above the current value: it is the
    high-water mark of the counter. *)
Theorem high_water_mark_kept (n : nat) (s : state) :
  0 <= value s <= max_value s ->
  0 <= value (snd (increment_n n s)) <= max_value (snd (increment_n n s)).
Proof.
  revert s. induction n as [|n IH]; intros s H; cbn [increment_n].
  - exact H.
  - pose proof (increment_high_water s H) as L.
    destruct (increment_maybe_wrap s) as [w s1]. cbn [snd] in L.
    specialize (IH s1 L).
    destruct (increment_n n s1) as [ws s2]. exact IH.
Qed.

Lemma high_water_mark_kept_witness :
  0 <= value (snd (increment_n 9 (set_max_possible 3 (initial_state true))))
    <= max_value (snd (increment_n 9 (set_max_possible 3 (initial_state true)))).
Proof.
  apply (high_water_mark_kept 9 (set_max_possible 3 (initial_state true))).
  cbn. lia.
Defined.

Lemma increment_value_mod (s : state) :
  0 <= value s <= max_possible s -> max_possible s < 256 ->
  value (snd (increment_maybe_wrap s)) = (value s + 1) mod (max_possible s + 1) /\
  max_possible (snd (increment_maybe_wrap s)) = max_possible s.
Proof.
  intros H Hm.
  destruct (Z.lt_ge_cases (value s) (max_possible s)) as [L|L].
  - rewrite increment_below by lia. cbn [snd].
    assert (E : u8 (value s + 1) = value s + 1)
      by (unfold u8; apply Z.mod_small; lia).
    rewrite E. rewrite Z.mod_small by lia.
    destruct (_ >? _); cbn; rewrite ?E; done.
  - rewrite increment_at_ceiling by lia. cbn.
    replace (value s + 1) with (1 * (max_possible s + 1)) by lia.
    rewrite Z.mod_mul by lia. done.
Qed.

(** The counter counts modulo [max_possible + 1]: from a value within the
    ceiling, [n] increments lead to [(value + n) mod (max_possible + 1)]. *)
Theorem increment_n_value (n : nat) (s : state) :
  0 <= value s <= max_possible s -> max_possible s < 256 ->
  value (snd (increment_n n s)) =
    (value s + Z.of_nat n) mod (max_possible s + 1) /\
  max_possible (snd (increment_n n s)) = max_possible s.
Proof.
  revert s. induction n as [|n IH]; intros s H Hm; cbn [increment_n].
  - cbn. rewrite Z.add_0_r, Z.mod_small by lia. done.
  - destruct (increment_value_mod s H Hm) as [V P].
    pose proof (increment_inv s H) as I. unfold counter_inv in I.
    destruct (increment_maybe_wrap s) as [w s1]. cbn [snd] in V, P, I.
    destruct (IH s1) as [V' P']; [lia | lia |].
    destruct (increment_n n s1) as [ws s2]. cbn [snd] in *.
    rewrite V', P', V, P. split; [|done].
    rewrite Z.add_mod_idemp_l by lia. f_equal. lia.
Qed.

Lemma increment_n_value_witness :
  let s := set_value 2 (set_max_possible 7 (initial_state true)) in
  value (snd (increment_n 20 s)) = (value s + Z.of_nat 20) mod (max_possible s + 1) /\
  max_possible (snd (increment_n 20 s)) = max_possible s.
Proof.
  apply (increment_n_value 20 (set_value 2 (set_max_possible 7 (initial_state true))));
    cbn; lia.
Defined.

(** ** Debouncing over two interrupts *)

Lemma handler_accepted (tv : timeval) (s : state) :
  200 <= u32 (since_epoch_msec tv s - last_interrupt_time_msec s) ->
  last_interrupt_time_msec (button_irq_handler tv s) = since_epoch_msec tv s /\
  epoch_msec (button_irq_handler tv s) = epoch_msec s.
Proof.
  intros H. unfold button_irq_handler.
  destruct (Z.ltb_spec (u32 (since_epoch_msec tv s - last_interrupt_time_msec s)) 200);
    [lia|].
  leds_frame. unfold increment_maybe_wrap. cbn.
  destruct (_ <? _); cbn; [destruct (_ >? _)|]; done.
Qed.

(** After an accepted interrupt, an interrupt less than 200 ms later (on
    the 32-bit millisecond clock) changes nothing: no two accepted
    interrupts are less than 200 ms apart. *)
Theorem debounce_rejects_within_window (tv tv' : timeval) (s : state) :
  200 <= u32 (since_epoch_msec tv s - last_interrupt_time_msec s) ->
  u32 (since_epoch_msec tv' s - since_epoch_msec tv s) < 200 ->
  button_irq_handler tv' (button_irq_handler tv s) = button_irq_handler tv s.
Proof.
  intros Ha Hr. destruct (handler_accepted tv s Ha) as [L E].
  set (s1 := button_irq_handler tv s) in *.
  unfold button_irq_handler at 1.
  assert (N : since_epoch_msec tv' s1 = since_epoch_msec tv' s)
    by (unfold since_epoch_msec; by rewrite E).
  rewrite N, L.
  destruct (Z.ltb_spec (u32 (since_epoch_msec tv' s - since_epoch_msec tv s)) 200);
    [done | lia].
Qed.

Lemma debounce_rejects_within_window_witness :
  let s := set_max_possible 7 (set_led_count 3 (initial_state true)) in
  button_irq_handler (Timeval 1 199000) (button_irq_handler (Timeval 1 0) s) =
  button_irq_handler (Timeval 1 0) s.
Proof.
  apply (debounce_rejects_within_window (Timeval 1 0) (Timeval 1 199000)
           (set_max_possible 7 (set_led_count 3 (initial_state true))));
    vm_compute; [discriminate | reflexivity].
Defined.

(** The millisecond clock of the module: after [init_debounce] at [tv0],
    an interrupt at [tv] is stamped with the number of milliseconds between
    the two, reduced to 32 bits. *)
Theorem since_epoch_msec_elapsed (tv0 tv : timeval) (s : state) :
  0 <= tv_sec tv0 <= tv_sec tv -> tv_sec tv < 2 ^ 32 ->
  0 <= tv_usec tv0 < 1000000 -> 0 <= tv_usec tv < 1000000 ->
  tv_sec tv0 * 1000 + tv_usec tv0 / 1000 <= tv_sec tv * 1000 + tv_usec tv / 1000 ->
  since_epoch_msec tv (init_debounce tv0 s) =
    ((tv_sec tv * 1000 + tv_usec tv / 1000)
     - (tv_sec tv0 * 1000 + tv_usec tv0 / 1000)) mod 2 ^ 32.
Proof.
  intros Hs Hb Hu0 Hu Hle.
  assert (M : forall t, 0 <= tv_sec t < 2 ^ 32 -> 0 <= tv_usec t < 1000000 ->
            msec_of_timeval t = tv_sec t * 1000 + tv_usec t / 1000).
  { intros t Ht Hut. unfold msec_of_timeval, u64.
    rewrite Z.quot_div_nonneg by lia.
    assert (0 <= tv_usec t / 1000 < 1000).
    { split; [apply Z.div_pos; lia | apply Z.div_lt_upper_bound; lia]. }
    rewrite (Z.mod_small (tv_sec t)) by lia.
    rewrite (Z.mod_small (tv_sec t * 1000)) by lia.
    rewrite (Z.mod_small (tv_usec t / 1000)) by lia.
    apply Z.mod_small. lia. }
  unfold since_epoch_msec, init_debounce. cbn [epoch_msec set_epoch_msec].
  rewrite !M by lia. unfold u32, u64.
  assert (0 <= tv_usec tv / 1000 < 1000).
  { split; [apply Z.div_pos; lia | apply Z.div_lt_upper_bound; lia]. }
  assert (0 <= tv_usec tv0 / 1000).
  { apply Z.div_pos; lia. }
  rewrite (Z.mod_small _ (2 ^ 64)) by lia. done.
Qed.

Lemma since_epoch_msec_elapsed_witness :
  since_epoch_msec (Timeval 12 345678) (init_debounce (Timeval 10 900000) (initial_state true))
  = ((12 * 1000 + 345678 / 1000) - (10 * 1000 + 900000 / 1000)) mod 2 ^ 32.
Proof.
  apply (since_epoch_msec_elapsed (Timeval 10 900000) (Timeval 12 345678)
           (initial_state true)); cbn [tv_sec tv_usec];
    [lia | reflexivity | lia | lia | vm_compute; discriminate].
Defined.

(** ** The LED array stays within its bounds *)

Lemma add_led_wf (junk : uninit) (f : string) (s : state) :
  wf_leds s -> led_count s < 8 -> wf_leds (add_led junk f s).
Proof.
  intros [C L] H. split.
  - rewrite add_led_count by lia. lia.
  - cbn. by rewrite length_insert.
Qed.

Lemma parse_fields_wf (junk : uninit) (fs : list string) (s : state) :
  wf_leds s -> wf_leds (scan_state (parse_fields junk fs s)).
Proof.
  revert s. induction fs as [|f fs IH]; intros s W; cbn [parse_fields].
  - exact W.
  - destruct (bad_field f); [destruct W; split; cbn; [lia | done]|].
    destruct (Z.geb_spec (led_count s) MAX_LEDS) as [G|G]; [exact W|].
    apply IH, add_led_wf; [exact W | exact G].
Qed.

Lemma assign_leds_wf (hw : hardware) (junk : uninit) (d : string) (s : state) :
  wf_leds s -> wf_leds (snd (assign_leds hw junk d s)).
Proof.
  intros W. unfold assign_leds.
  destruct (led_count s >? 0); [exact W|].
  rewrite assign_leds_scan_fields by (cbn; lia).
  pose proof (parse_fields_wf junk (fields_from d EmptyString) s W) as P.
  destruct (parse_fields junk (fields_from d EmptyString) s) as [code s'|s1];
    cbn [scan_state] in P; [exact P|].
  assert (W2 : wf_leds (setup_max_possible s1)).
  { unfold setup_max_possible. destruct (_ >? _); exact P. }
  destruct (enable_gpio _); [|exact W2].
  match goal with |- context [init_leds hw junk ?m ?i ?s'] =>
    destruct (init_leds_cases hw junk m i s') as [[cs ->] | [cs ->]] end;
    exact W2.
Qed.

Lemma unassign_leds_state (s : state) :
  exists cs, snd (unassign_leds s) = set_led_count 0 (issue cs s) /\
             (enable_gpio s = false -> cs = []).
Proof.
  unfold unassign_leds. cbn [snd]. destruct (enable_gpio s).
  - destruct (unassign_loop_issue (Z.to_nat (led_count s)) 0 s) as [cs ->].
    exists cs. split; [done | discriminate].
  - exists []. by rewrite issue_nil.
Qed.

Lemma unassign_leds_wf (s : state) :
  wf_leds s -> wf_leds (snd (unassign_leds s)).
Proof.
  intros [C L]. destruct (unassign_leds_state s) as (cs & -> & _).
  split; cbn; [lia | done].
Qed.

Lemma set_leds_from_value_wf (s : state) :
  wf_leds s -> wf_leds (snd (set_leds_from_value s)).
Proof.
  intros [C L].
  destruct (set_leds_from_value_spec s) as (C' & L' & _); [lia | lia |].
  split; [rewrite C'; exact C | rewrite L'; exact L].
Qed.

Lemma increment_frame (s : state) :
  exists v m, snd (increment_maybe_wrap s) = set_max_value m (set_value v s).
Proof.
  unfold increment_maybe_wrap. destruct (_ <? _); cbn [snd].
  - destruct (_ >? _).
    + eexists _, _. reflexivity.
    + exists (u8 (value s + 1)), (max_value s). by destruct s.
  - exists 0, (max_value s). by destruct s.
Qed.

Lemma increment_wf (s : state) :
  wf_leds s -> wf_leds (snd (increment_maybe_wrap s)).
Proof. intros W. destruct (increment_frame s) as (v & m & ->). exact W. Qed.

(** Whatever is written to the module and whenever the button fires,
    [led_count] stays within [0, MAX_LEDS] and [led_values] keeps its 8
    entries. *)
Theorem wf_leds_preserved (hw : hardware) (junk : uninit) (s : state) :
  wf_leds s ->
  (forall d, wf_leds (snd (assign_leds hw junk d s))) /\
  wf_leds (snd (unassign_leds s)) /\
  wf_leds (snd (set_leds_from_value s)) /\
  (forall tv, wf_leds (button_irq_handler tv s)) /\
  (forall buf count, wf_leds (snd (value_store junk buf count s))) /\
  (forall buf count, wf_leds (snd (max_value_store junk buf count s))) /\
  (forall buf count, wf_leds (snd (gpio_leds_store hw junk buf count s))) /\
  (forall buf count, wf_leds (snd (increment_store buf count s))) /\
  (forall buf count,
      wf_leds (snd (gpio_button_increment_store hw junk buf count s))).
Proof.
  intros W. repeat split_and.
  - intros d. by apply assign_leds_wf.
  - by apply unassign_leds_wf.
  - by apply set_leds_from_value_wf.
  - intros tv. unfold button_irq_handler. destruct (_ <? 200); [exact W|].
    apply set_leds_from_value_wf, increment_wf. exact W.
  - intros buf count. unfold value_store. cbn [snd].
    apply set_leds_from_value_wf. exact W.
  - intros buf count. exact W.
  - intros buf count. unfold gpio_leds_store. cbn [snd].
    by apply set_leds_from_value_wf, assign_leds_wf, unassign_leds_wf.
  - intros buf count. unfold increment_store. cbn [snd].
    by apply set_leds_from_value_wf, increment_wf.
  - intros buf count. unfold gpio_button_increment_store, assign_increment_button,
      unassign_increment_button. cbn [snd].
    destruct (enable_gpio s) eqn:E; cbn [snd].
    + destruct (gpio_increment_button s >? 0); cbn; rewrite E;
        destruct (gpio_is_valid hw _); cbn;
        try destruct (request_irq hw _ =? 0); cbn; exact W.
    + cbn. rewrite E. exact W.
Qed.

Lemma wf_leds_preserved_witness :
  let s := snd (gpio_leds_store hw_no_77 junk0 "1,2,3,4,5,6,7,8" 15
                                (initial_state true)) in
  (led_count s = 8 /\ length (led_values s) = 8%nat /\
   led_count (snd (gpio_leds_store hw_no_77 junk0 "1,2,3,4,5,6,7,8,9,10" 20 s)) = 8 /\
   led_count (snd (gpio_leds_store hw_no_77 junk0 "9,10,11" 7 s)) = 3) /\
  (forall d, wf_leds (snd (assign_leds hw_no_77 junk0 d s))) /\
  wf_leds (snd (unassign_leds s)) /\
  wf_leds (snd (set_leds_from_value s)) /\
  (forall tv, wf_leds (button_irq_handler tv s)) /\
  (forall buf count, wf_leds (snd (value_store junk0 buf count s))) /\
  (forall buf count, wf_leds (snd (max_value_store junk0 buf count s))) /\
  (forall buf count, wf_leds (snd (gpio_leds_store hw_no_77 junk0 buf count s))) /\
  (forall buf count, wf_leds (snd (increment_store buf count s))) /\
  (forall buf count,
      wf_leds (snd (gpio_button_increment_store hw_no_77 junk0 buf count s))).
Proof.
  intros s. split; [by vm_compute|].
  apply (wf_leds_preserved hw_no_77 junk0 s).
  split; [vm_compute; split; discriminate | reflexivity].
Defined.

(** ** The LEDs follow the counter *)

Lemma set_leds_from_value_shows (s : state) :
  wf_leds s ->
  leds_show_value (snd (set_leds_from_value s)) /\
  value (snd (set_leds_from_value s)) = value s.
Proof.
  intros [C L].
  destruct (set_leds_from_value_spec s) as (C' & _ & I & _); [lia | lia |].
  assert (V : value (snd (set_leds_from_value s)) = value s)
    by (destruct (set_leds_from_value_frame s) as (l & cs & ->); done).
  split; [|exact V].
  intros i Hi. rewrite C' in Hi. rewrite I, V by done. reflexivity.
Qed.

(** Every operation that changes the counter leaves the LED table showing
    the stored value, bit [i] on position [i]: the writes to [value], to
    [increment] and to [gpio_leds] establish it, and the button interrupt
    keeps it, accepted or not. *)
Theorem leds_follow_value (hw : hardware) (junk : uninit) (s : state) :
  wf_leds s ->
  (forall buf count, leds_show_value (snd (value_store junk buf count s))) /\
  (forall buf count, leds_show_value (snd (increment_store buf count s))) /\
  (forall buf count, leds_show_value (snd (gpio_leds_store hw junk buf count s))) /\
  (forall tv, leds_show_value s -> leds_show_value (button_irq_handler tv s)).
Proof.
  intros W. repeat split_and.
  - intros buf count. unfold value_store. cbn [snd].
    apply set_leds_from_value_shows. exact W.
  - intros buf count. unfold increment_store. cbn [snd].
    apply set_leds_from_value_shows, increment_wf. exact W.
  - intros buf count. unfold gpio_leds_store. cbn [snd].
    by apply set_leds_from_value_shows, assign_leds_wf, unassign_leds_wf.
  - intros tv D. unfold button_irq_handler. destruct (_ <? 200); [exact D|].
    apply set_leds_from_value_shows, increment_wf. exact W.
Qed.

Lemma leds_follow_value_witness :
  let s := set_led_count 3 (initial_state true) in
  (forall buf count, leds_show_value (snd (value_store junk0 buf count s))) /\
  (forall buf count, leds_show_value (snd (increment_store buf count s))) /\
  (forall buf count, leds_show_value (snd (gpio_leds_store hw_no_77 junk0 buf count s))) /\
  (forall tv, leds_show_value s -> leds_show_value (button_irq_handler tv s)).
Proof.
  apply (leds_follow_value hw_no_77 junk0 (set_led_count 3 (initial_state true))).
  split; [cbn; lia | reflexivity].
Defined.

(** ** Hardware calls of LED release and acquisition *)

Lemma unassign_loop_calls (n : nat) (i : Z) (s : state) :
  0 <= i -> i + Z.of_nat n < 256 ->
  unassign_loop n i s =
    issue (flat_map (release_calls s) (seqZ i (Z.of_nat n))) s.
Proof.
  revert i s. induction n as [|n IH]; intros i s Hi Hn.
  - cbn. by rewrite issue_nil.
  - cbn [unassign_loop].
    assert (U : u8 (i + 1) = i + 1) by (unfold u8; apply Z.mod_small; lia).
    rewrite U, IH by lia. rewrite !call_issue, !issue_issue.
    rewrite (seqZ_cons i (Z.of_nat (S n))) by lia.
    replace (Z.pred (Z.of_nat (S n))) with (Z.of_nat n) by lia.
    reflexivity.
Qed.

(** [unassign_leds] always returns 0 and leaves no LED assigned.  With
    GPIO enabled it releases exactly the assigned pins, in ascending
    order, each one driven off, unexported, then freed; with GPIO disabled
    it asks nothing of the hardware.  Called again, it does nothing. *)
Theorem unassign_leds_releases (s : state) :
  wf_leds s ->
  fst (unassign_leds s) = 0 /\
  snd (unassign_leds s) =
    set_led_count 0
      (issue (if enable_gpio s
              then flat_map (release_calls s) (seqZ 0 (led_count s))
              else []) s) /\
  unassign_leds (snd (unassign_leds s)) = (0, snd (unassign_leds s)).
Proof.
  intros [C L].
  assert (E : snd (unassign_leds s) =
    set_led_count 0
      (issue (if enable_gpio s
              then flat_map (release_calls s) (seqZ 0 (led_count s))
              else []) s)).
  { unfold unassign_leds. cbn [snd]. destruct (enable_gpio s).
    - rewrite unassign_loop_calls by lia. by rewrite Z2Nat.id by lia.
    - by rewrite issue_nil. }
  split; [reflexivity|]. split; [exact E|].
  rewrite E. unfold unassign_leds. cbn.
  destruct (enable_gpio s); reflexivity.
Qed.

Lemma unassign_leds_releases_witness :
  let s := set_led_count 2 (initial_state true) in
  fst (unassign_leds s) = 0 /\
  snd (unassign_leds s) =
    set_led_count 0
      (issue (if enable_gpio s
              then flat_map (release_calls s) (seqZ 0 (led_count s))
              else []) s) /\
  unassign_leds (snd (unassign_leds s)) = (0, snd (unassign_leds s)).
Proof.
  apply (unassign_leds_releases (set_led_count 2 (initial_state true))).
  split; [cbn; lia | reflexivity].
Defined.

Lemma init_leds_valid (hw : hardware) (junk : uninit) (n : nat) (i : Z)
      (s : state) :
  (forall k, i <= k < i + Z.of_nat n ->
             gpio_is_valid hw (gpio (led_at k s)) = true) ->
  0 <= i -> i + Z.of_nat n < 256 ->
  init_leds hw junk n i s =
    (0, issue (map (fun k => GpioDirectionOutput (gpio (led_at k s)) 0)
                   (seqZ i (Z.of_nat n))) s).
Proof.
  revert i s. induction n as [|n IH]; intros i s Hv Hi Hn.
  - cbn. by rewrite issue_nil.
  - cbn [init_leds]. rewrite Hv by lia. cbn [negb].
    assert (U : u8 (i + 1) = i + 1) by (unfold u8; apply Z.mod_small; lia).
    rewrite U, IH; [| intros k Hk; apply Hv; lia | lia | lia].
    rewrite call_issue, issue_issue.
    rewrite (seqZ_cons i (Z.of_nat (S n))) by lia.
    replace (Z.pred (Z.of_nat (S n))) with (Z.of_nat n) by lia.
    reflexivity.
Qed.

(** What a scan without malformed field leaves: the state it started
    from, with [led_count] and [led_values] replaced. *)
Lemma assign_leds_scan_good (junk : uninit) (d : string) (s : state) :
  led_count s = 0 ->
  length (led_values s) = 8%nat ->
  Forall (fun f => bad_field f = false) (take 9 (fields d)) ->
  exists l,
    assign_leds_scan junk d EmptyString s =
      ScanDone (leds_of (Z.min (Z.of_nat (length (fields d))) 8) l s) /\
    length l = 8%nat /\
    (forall k f, (k < 8)%nat -> fields d !! k = Some f ->
       l !! k = Some (led_of_field junk (Z.of_nat k) f)).
Proof.
  intros Hc Hl Hall.
  assert (Hscan : assign_leds_scan junk d EmptyString s =
                  parse_fields junk (fields d) s)
    by (apply assign_leds_scan_fields; cbn; lia).
  destruct (parse_fields_good junk (fields d) s) as (s' & E & C & L & P & Q);
    [lia | done | by rewrite Hc |].
  destruct (assign_leds_scan_frame junk d EmptyString s) as (n & l & F).
  rewrite Hscan, E in F. cbn [scan_state] in F. subst s'.
  cbn [led_count led_values leds_of set_led_values set_led_count] in C, L, Q.
  rewrite Hc in C, Q.
  exists l. rewrite Hscan, E. split; [by rewrite C|]. split; [exact L|].
  intros k f Hk Hf. specialize (Q k f Hf ltac:(lia)).
  replace (0 + Z.of_nat k) with (Z.of_nat k) in Q by lia. exact Q.
Qed.

Lemma setup_max_possible_leds_of (n : Z) (l : list led) (s : state) :
  0 <= n <= 8 ->
  exists v, setup_max_possible (leds_of n l s) =
            set_value v (set_max_possible (2 ^ n - 1) (leds_of n l s)) /\
            (v = value s \/ v = 0).
Proof.
  intros H. unfold setup_max_possible.
  cbn [led_count leds_of set_led_values set_led_count].
  rewrite setup_loop_ones by lia. rewrite Z2Nat.id by lia.
  destruct (_ >? _).
  - exists 0. split; [reflexivity | by right].
  - exists (value s). split; [by destruct s | by left].
Qed.

(** A descriptor without malformed field whose pins are all valid, given
    with GPIO enabled and no LED assigned: [assign_leds] returns 0, the
    first eight fields at most are assigned in order, [max_possible] is
    [2 ^ led_count - 1], and the hardware is asked exactly to make each
    assigned pin an output at level 0, in ascending order. *)
Theorem assign_leds_acquires (hw : hardware) (junk : uninit) (d : string)
        (s : state) :
  led_count s = 0 ->
  length (led_values s) = 8%nat ->
  enable_gpio s = true ->
  Forall (fun f => bad_field f = false) (take 9 (fields d)) ->
  (forall k f, (k < 8)%nat -> fields d !! k = Some f ->
     gpio_is_valid hw (gpio (led_of_field junk (Z.of_nat k) f)) = true) ->
  let r := assign_leds hw junk d s in
  let n := Z.min (Z.of_nat (length (fields d))) 8 in
  fst r = 0 /\
  led_count (snd r) = n /\
  max_possible (snd r) = 2 ^ n - 1 /\
  (forall k f, (k < 8)%nat -> fields d !! k = Some f ->
     led_at (Z.of_nat k) (snd r) = led_of_field junk (Z.of_nat k) f) /\
  calls (snd r) = calls s ++
    map (fun k => GpioDirectionOutput (gpio (led_at k (snd r))) 0) (seqZ 0 n).
Proof.
  intros Hc Hl Hg Hall Hv r n.
  destruct (assign_leds_scan_good junk d s Hc Hl Hall) as (l & E & L & Q).
  fold n in E.
  assert (Hn : 0 <= n <= 8) by (subst n; lia).
  destruct (setup_max_possible_leds_of n l s Hn) as (v & S2 & _).
  assert (At : forall k f, (k < 8)%nat -> fields d !! k = Some f ->
             l !!! k = led_of_field junk (Z.of_nat k) f).
  { intros k f Hk Hf. apply list_lookup_total_correct. by apply Q. }
  assert (R : r = (0, issue (map (fun k => GpioDirectionOutput (gpio (l !!! Z.to_nat k)) 0)
                                 (seqZ 0 n))
                            (set_value v (set_max_possible (2 ^ n - 1) (leds_of n l s))))).
  { subst r. unfold assign_leds. rewrite Hc, E. change (0 >? 0) with false.
    cbv iota. rewrite S2. cbn [enable_gpio set_value set_max_possible leds_of
                               set_led_values set_led_count led_count].
    rewrite Hg. rewrite init_leds_valid; [by rewrite Z2Nat.id by lia | | lia | lia].
    intros k Hk. rewrite Z2Nat.id in Hk by lia.
    unfold led_at. cbn [led_values set_value set_max_possible leds_of
                        set_led_values set_led_count].
    destruct (lookup_lt_is_Some_2 (fields d) (Z.to_nat k)) as [f Hf]; [lia|].
    rewrite (At (Z.to_nat k) f) by (done || lia).
    apply (Hv (Z.to_nat k) f); [lia | done]. }
  rewrite R. cbn [fst snd]. repeat split.
  intros k f Hk Hf. unfold led_at. cbn. rewrite Nat2Z.id. by apply At.
Qed.

Lemma assign_leds_acquires_witness :
  let r := assign_leds hw_no_77 junk0 "5,12,200" (initial_state true) in
  let n := Z.min (Z.of_nat (length (fields "5,12,200"))) 8 in
  fst r = 0 /\
  led_count (snd r) = n /\
  max_possible (snd r) = 2 ^ n - 1 /\
  (forall k f, (k < 8)%nat -> fields "5,12,200" !! k = Some f ->
     led_at (Z.of_nat k) (snd r) = led_of_field junk0 (Z.of_nat k) f) /\
  calls (snd r) = calls (initial_state true) ++
    map (fun k => GpioDirectionOutput (gpio (led_at k (snd r))) 0) (seqZ 0 n).
Proof.
  apply (assign_leds_acquires hw_no_77 junk0 "5,12,200" (initial_state true));
    [reflexivity | reflexivity | reflexivity | vm_compute; repeat constructor |].
  intros [|[|[|k]]] f Hk Hf; vm_compute in Hf; try discriminate;
    injection Hf as <-; reflexivity.
Defined.

(** With GPIO enabled, a descriptor without malformed field that names an
    invalid pin among the pins to assign makes [assign_leds] return
    [-ENODEV] with [value] and [max_possible] at 0; [max_value] is kept. *)
Theorem assign_leds_invalid_pin (hw : hardware) (junk : uninit) (d : string)
        (s : state) :
  led_count s = 0 ->
  length (led_values s) = 8%nat ->
  enable_gpio s = true ->
  Forall (fun f => bad_field f = false) (take 9 (fields d)) ->
  (exists k f, (k < 8)%nat /\ fields d !! k = Some f /\
     gpio_is_valid hw (gpio (led_of_field junk (Z.of_nat k) f)) = false) ->
  let r := assign_leds hw junk d s in
  fst r = - ENODEV /\
  value (snd r) = 0 /\
  max_possible (snd r) = 0 /\
  max_value (snd r) = max_value s.
Proof.
  intros Hc Hl Hg Hall (k & f & Hk & Hf & Hv) r.
  destruct (assign_leds_scan_good junk d s Hc Hl Hall) as (l & E & L & Q).
  set (n := Z.min (Z.of_nat (length (fields d))) 8) in *.
  assert (Hlen : (k < length (fields d))%nat) by (by eapply lookup_lt_Some).
  assert (Hn : 0 <= n <= 8) by (subst n; lia).
  destruct (setup_max_possible_leds_of n l s Hn) as (v & S2 & _).
  set (s2 := set_value v (set_max_possible (2 ^ n - 1) (leds_of n l s))) in *.
  assert (R : r = init_leds hw junk (Z.to_nat n) 0 s2).
  { subst r. unfold assign_leds. rewrite Hc, E. change (0 >? 0) with false.
    cbv iota. rewrite S2. subst s2.
    cbn [enable_gpio set_value set_max_possible leds_of
         set_led_values set_led_count led_count].
    by rewrite Hg. }
  rewrite R.
  destruct (init_leds_invalid hw junk (Z.to_nat n) 0 s2) as (A & B & C);
    [| lia | lia |].
  { exists k. split; [subst n; lia|].
    unfold led_at. subst s2.
    cbn [led_values set_value set_max_possible leds_of set_led_values set_led_count].
    rewrite Z.add_0_l, Nat2Z.id.
    by rewrite (list_lookup_total_correct _ _ _ (Q k f Hk Hf)). }
  split; [exact A|]. split; [exact B|]. split; [exact C|].
  destruct (init_leds_cases hw junk (Z.to_nat n) 0 s2) as [[cs ->] | [cs ->]];
    reflexivity.
Qed.

Lemma assign_leds_invalid_pin_witness :
  let r := assign_leds hw_no_77 junk0 "5,77" (initial_state true) in
  fst r = - ENODEV /\
  value (snd r) = 0 /\
  max_possible (snd r) = 0 /\
  max_value (snd r) = max_value (initial_state true).
Proof.
  apply (assign_leds_invalid_pin hw_no_77 junk0 "5,77" (initial_state true));
    [reflexivity | reflexivity | reflexivity | vm_compute; repeat constructor |].
  exists 1%nat, "77"%string. repeat split. lia.
Defined.

(** A descriptor with a malformed field among its first nine, written to
    [gpio_leds]: the write returns [count], the previous pins have been
    released and nothing else is asked of the hardware, no LED is
    assigned, and [value], [max_value] and [max_possible] are kept as
    they were. *)
Theorem gpio_leds_store_malformed (hw : hardware) (junk : uninit) (buf : string)
        (count : Z) (s : state) :
  wf_leds s ->
  Exists (fun f => bad_field f = true) (take 9 (fields buf)) ->
  let r := gpio_leds_store hw junk buf count s in
  fst r = count /\
  led_count (snd r) = 0 /\
  value (snd r) = value s /\
  max_value (snd r) = max_value s /\
  max_possible (snd r) = max_possible s /\
  calls (snd r) = calls (snd (unassign_leds s)).
Proof.
  intros W Hex r. subst r. unfold gpio_leds_store. cbn [fst snd].
  destruct (unassign_leds_state s) as (cs & U & _).
  set (s1 := snd (unassign_leds s)) in *.
  assert (C1 : led_count s1 = 0) by (by rewrite U).
  destruct (parse_fields_bad junk (fields buf) s1) as (s' & E & C);
    [lia | by rewrite C1 |].
  destruct (assign_leds_scan_frame junk buf EmptyString s1) as (n & l & F).
  assert (A : assign_leds hw junk buf s1 = (- EINVAL, s')).
  { unfold assign_leds. rewrite C1. change (0 >? 0) with false. cbv iota.
    rewrite assign_leds_scan_fields by (cbn; lia). fold (fields buf).
    by rewrite E. }
  rewrite assign_leds_scan_fields in F by (cbn; lia). fold (fields buf) in F.
  rewrite E in F. cbn [scan_state] in F.
  rewrite A. cbn [snd]. unfold set_leds_from_value. rewrite C.
  change (Z.to_nat 0) with 0%nat. cbn [encode_loop drive_loop snd].
  assert (T : forall b : bool, (if b then set_led_values (led_values s') s'
                                else set_led_values (led_values s') s')
                               = set_led_values (led_values s') s')
    by (by intros []).
  rewrite T. cbn [led_count value max_value max_possible calls set_led_values].
  rewrite C, F, U. done.
Qed.

Lemma gpio_leds_store_malformed_witness :
  let s := set_value 2 (set_max_possible 3 (set_led_count 2 (initial_state true))) in
  let r := gpio_leds_store hw_no_77 junk0 "5,,12" 5 s in
  fst r = 5 /\
  led_count (snd r) = 0 /\
  value (snd r) = value s /\
  max_value (snd r) = max_value s /\
  max_possible (snd r) = max_possible s /\
  calls (snd r) = calls (snd (unassign_leds s)).
Proof.
  apply (gpio_leds_store_malformed hw_no_77 junk0 "5,,12" 5
           (set_value 2 (set_max_possible 3 (set_led_count 2 (initial_state true))))).
  - split; [cbn; lia | reflexivity].
  - vm_compute. apply Exists_cons_tl, Exists_cons_hd. reflexivity.
Defined.

(** ** Reading back what the module shows *)

Lemma string_app_assoc (a b c : string) :
  ((a ++ b) ++ c = a ++ (b ++ c))%string.
Proof. induction a as [|x a IH]; cbn; [done | by rewrite IH]. Qed.

Lemma string_app_nil_r (a : string) : (a ++ "")%string = a.
Proof. induction a as [|x a IH]; cbn; [done | by rewrite IH]. Qed.

Lemma scan_t_decimal (junk : uninit) (t : N) (rest : string) :
  starts_with_digit rest = false ->
  u8 (scan_t junk (decimal t ++ rest)) = Z.of_N t mod 256.
Proof.
  intros Hr. destruct (sscanf_u_decimal t rest Hr) as (x & Hx & Hm).
  unfold scan_t. rewrite Hx. by apply u8_u32.
Qed.

Lemma scan_t_sprintf (junk : uninit) (v : Z) :
  0 <= v < 256 -> u8 (scan_t junk (sprintf_u v ++ newline)) = v.
Proof.
  intros H. unfold sprintf_u. rewrite scan_t_decimal by reflexivity.
  rewrite Z2N.id by lia. apply Z.mod_small. lia.
Qed.

(** What [value], [max_value] and [gpio_button_increment] show can be
    written back as it is: the text is the decimal number and a newline,
    and writing it stores the number shown. *)
Theorem show_store_round_trip (hw : hardware) (junk : uninit) (count : Z)
        (s s0 : state) :
  0 <= value s < 256 -> 0 <= max_value s < 256 ->
  0 <= gpio_increment_button s < 256 ->
  value (snd (value_store junk (snd (value_show s)) count s0)) = value s /\
  max_value (snd (max_value_store junk (snd (max_value_show s)) count s0))
    = max_value s /\
  gpio_increment_button
    (snd (gpio_button_increment_store hw junk
            (snd (gpio_button_increment_show s)) count s0))
    = gpio_increment_button s.
Proof.
  intros Hv Hm Hb. repeat split_and.
  - unfold value_store, value_show. cbn [snd]. leds_frame. cbn.
    by apply scan_t_sprintf.
  - unfold max_value_store, max_value_show. cbn [snd max_value set_max_value].
    by apply scan_t_sprintf.
  - unfold gpio_button_increment_store, gpio_button_increment_show. cbn [snd].
    rewrite scan_t_sprintf by done.
    unfold assign_increment_button.
    cbn [enable_gpio gpio_increment_button set_gpio_increment_button].
    destruct (enable_gpio _); [|done].
    destruct (gpio_is_valid hw _); cbn [negb]; [|done].
    destruct (negb _); reflexivity.
Qed.

Lemma show_store_round_trip_witness :
  let s := set_gpio_increment_button 17
             (set_max_value 200 (set_value 44 (initial_state true))) in
  value (snd (value_store junk0 (snd (value_show s)) 3 (initial_state true)))
    = value s /\
  max_value (snd (max_value_store junk0 (snd (max_value_show s)) 3
                                  (initial_state true))) = max_value s /\
  gpio_increment_button
    (snd (gpio_button_increment_store hw_no_77 junk0
            (snd (gpio_button_increment_show s)) 3 (initial_state true)))
    = gpio_increment_button s.
Proof.
  apply (show_store_round_trip hw_no_77 junk0 3
           (set_gpio_increment_button 17
              (set_max_value 200 (set_value 44 (initial_state true))))
           (initial_state true)); cbn; lia.
Defined.

Lemma gpio_leds_show_loop_tail (n : nat) (i : Z) (s : state) (buf : string) :
  1 <= i ->
  gpio_leds_show_loop n i s buf =
    (buf ++ show_tail (map (fun k => gpio (led_at k s)) (seqZ i (Z.of_nat n))))%string.
Proof.
  revert i buf. induction n as [|n IH]; intros i buf Hi.
  - cbn. by rewrite string_app_nil_r.
  - cbn [gpio_leds_show_loop].
    replace (i =? 0) with false by (symmetry; apply Z.eqb_neq; lia).
    cbn [negb]. rewrite IH by lia.
    rewrite (seqZ_cons i (Z.of_nat (S n))) by lia.
    replace (Z.pred (Z.of_nat (S n))) with (Z.of_nat n) by lia.
    cbn [map show_tail]. by rewrite !string_app_assoc.
Qed.

(** The text of [gpio_leds_show] before its final newline: the first pin,
    then a comma and a pin for each further entry. *)
Lemma gpio_leds_show_text (s : state) :
  1 <= led_count s ->
  exists p ps, led_pins s = p :: ps /\
    gpio_leds_show_loop (Z.to_nat (led_count s)) 0 s EmptyString =
      (sprintf_u p ++ show_tail ps)%string.
Proof.
  intros H. unfold led_pins.
  rewrite (seqZ_cons 0 (led_count s)) by lia. cbn [map].
  eexists _, _. split; [reflexivity|].
  replace (Z.to_nat (led_count s)) with (S (Z.to_nat (Z.pred (led_count s)))) by lia.
  cbn [gpio_leds_show_loop]. change (negb (0 =? 0)) with false. cbv iota.
  rewrite gpio_leds_show_loop_tail by lia.
  rewrite Z2Nat.id by lia. reflexivity.
Qed.

Lemma fields_from_numeral (d : Decimal.uint) (rest cur : string) :
  fields_from (NilEmpty.string_of_uint d ++ rest) cur =
  fields_from rest (cur ++ NilEmpty.string_of_uint d).
Proof.
  revert cur. induction d; intros cur;
    cbn [NilEmpty.string_of_uint String.append fields_from];
    try (change (Ascii.eqb _ zero) with false;
         change (Ascii.eqb _ ",") with false; cbv iota;
         rewrite IHd, string_app_assoc; reflexivity).
  by rewrite string_app_nil_r.
Qed.

Lemma fields_from_show_tail (ps : list Z) (cur : string) :
  fields_from (show_tail ps) cur = cur :: map sprintf_u ps.
Proof.
  revert cur. induction ps as [|p ps IH]; intros cur; [reflexivity|].
  cbn [show_tail map]. cbn [String.append fields_from].
  change (Ascii.eqb "," zero) with false. change (Ascii.eqb "," ",") with true.
  cbv iota. unfold sprintf_u at 1, decimal.
  rewrite fields_from_numeral. cbn [String.append]. by rewrite IH.
Qed.

Lemma fields_show (p : Z) (ps : list Z) :
  fields (sprintf_u p ++ show_tail ps) = map sprintf_u (p :: ps).
Proof.
  unfold fields, sprintf_u at 1, decimal.
  rewrite fields_from_numeral. cbn [String.append]. apply fields_from_show_tail.
Qed.

Lemma sprintf_u_byte_good (p : Z) :
  0 <= p < 256 -> bad_field (sprintf_u p) = false.
Proof.
  intros H.
  assert (A : forallb (fun n => negb (bad_field (sprintf_u (Z.of_nat n))))
                      (seq 0 256) = true) by (by vm_compute).
  rewrite forallb_forall in A.
  specialize (A (Z.to_nat p)). rewrite Z2Nat.id in A by lia.
  apply negb_true_iff, A, in_seq. lia.
Qed.

Lemma led_of_field_sprintf (junk : uninit) (i p : Z) :
  0 <= p < 256 -> led_of_field junk i (sprintf_u p) = Led false p.
Proof.
  intros H. unfold led_of_field. f_equal.
  destruct (sscanf_u_decimal (Z.to_N p) EmptyString eq_refl) as (x & Hx & Hm).
  rewrite string_app_nil_r in Hx. unfold sprintf_u. rewrite Hx.
  rewrite (u8_u32 _ _ Hm), Z2N.id by lia. apply Z.mod_small. lia.
Qed.

(** The LED table that [assign_leds] leaves for a descriptor without
    malformed field, whatever the hardware answers. *)
Lemma assign_leds_table (hw : hardware) (junk : uninit) (d : string) (s : state) :
  led_count s = 0 ->
  length (led_values s) = 8%nat ->
  Forall (fun f => bad_field f = false) (take 9 (fields d)) ->
  led_count (snd (assign_leds hw junk d s))
    = Z.min (Z.of_nat (length (fields d))) 8 /\
  length (led_values (snd (assign_leds hw junk d s))) = 8%nat /\
  (forall k f, (k < 8)%nat -> fields d !! k = Some f ->
     led_values (snd (assign_leds hw junk d s)) !! k
       = Some (led_of_field junk (Z.of_nat k) f)).
Proof.
  intros Hc Hl Hall.
  destruct (assign_leds_scan_good junk d s Hc Hl Hall) as (l & E & L & Q).
  set (n := Z.min (Z.of_nat (length (fields d))) 8) in *.
  assert (Hn : 0 <= n <= 8) by (subst n; lia).
  destruct (setup_max_possible_leds_of n l s Hn) as (v & S2 & _).
  unfold assign_leds. rewrite Hc, E. change (0 >? 0) with false. cbv iota.
  rewrite S2.
  destruct (enable_gpio _); [|done].
  match goal with |- context [init_leds hw junk ?m ?i ?s'] =>
    destruct (init_leds_cases hw junk m i s') as [[cs ->] | [cs ->]] end; done.
Qed.

(** The pin list shown by [gpio_leds] can be written back: with at least
    one LED assigned, writing the text that [gpio_leds_show] produces,
    without its final newline, assigns the same pins in the same order,
    whatever was assigned before. *)
Theorem gpio_leds_show_store_round_trip (hw : hardware) (junk : uninit)
        (count : Z) (s s0 : state) :
  wf_leds s -> wf_leds s0 ->
  1 <= led_count s ->
  (forall i, 0 <= i < led_count s -> 0 <= gpio (led_at i s) < 256) ->
  let text := gpio_leds_show_loop (Z.to_nat (led_count s)) 0 s EmptyString in
  let r := gpio_leds_store hw junk text count s0 in
  snd (gpio_leds_show s) = (text ++ newline)%string /\
  led_count (snd r) = led_count s /\
  led_pins (snd r) = led_pins s.
Proof.
  intros [C L] W0 H1 Hp text r.
  split; [reflexivity|].
  destruct (gpio_leds_show_text s H1) as (p & ps & Eps & Et). fold text in Et.
  assert (Hlen : length (led_pins s) = Z.to_nat (led_count s))
    by (unfold led_pins; rewrite length_map, length_seqZ; lia).
  assert (Hpin : forall k q, led_pins s !! k = Some q ->
            (k < 8)%nat /\ 0 <= q < 256 /\ q = gpio (led_at (Z.of_nat k) s)).
  { intros k q Hk. unfold led_pins in Hk.
    apply list_lookup_fmap_Some_1 in Hk as (i & -> & Hi).
    apply lookup_seqZ in Hi as [-> Hi]. rewrite Z.add_0_l.
    split; [lia|]. split; [apply Hp; lia | done]. }
  assert (F : fields text = map sprintf_u (led_pins s))
    by (rewrite Et, Eps; apply fields_show).
  (* the state in which the descriptor is scanned *)
  pose proof (unassign_leds_wf s0 W0) as [_ L1].
  destruct (unassign_leds_state s0) as (cs & U & _).
  set (s1 := snd (unassign_leds s0)) in *.
  assert (C1 : led_count s1 = 0) by (by rewrite U).
  assert (G : Forall (fun f => bad_field f = false) (take 9 (fields text))).
  { apply Forall_take. rewrite F. apply Forall_forall. intros f Hf.
    apply list_elem_of_In, in_map_iff in Hf as (q & <- & Hq).
    apply list_elem_of_In, list_elem_of_lookup in Hq as [k Hk].
    apply sprintf_u_byte_good. by apply (Hpin k q). }
  destruct (assign_leds_table hw junk text s1 C1 L1 G) as (A & B & D).
  rewrite F, length_map, Hlen in A.
  set (s2 := snd (assign_leds hw junk text s1)) in *.
  assert (A' : led_count s2 = led_count s) by lia.
  destruct (set_leds_from_value_spec s2) as (C3 & _ & I & _); [lia | lia |].
  assert (R : snd r = snd (set_leds_from_value s2)) by reflexivity.
  rewrite R. split; [lia|].
  unfold led_pins. rewrite C3, A'.
  apply map_ext_in. intros k Hk.
  apply list_elem_of_In, elem_of_seqZ in Hk.
  rewrite I by lia. cbn [gpio].
  assert (Hq : led_pins s !! Z.to_nat k = Some (gpio (led_at k s))).
  { unfold led_pins. rewrite list_lookup_fmap, (lookup_seqZ_lt 0) by lia.
    cbn. by rewrite Z2Nat.id by lia. }
  specialize (D (Z.to_nat k) (sprintf_u (gpio (led_at k s))) ltac:(lia)).
  rewrite F, list_lookup_fmap, Hq in D. specialize (D eq_refl).
  unfold led_at at 1. rewrite (list_lookup_total_correct _ _ _ D).
  rewrite led_of_field_sprintf by (apply Hp; lia). reflexivity.
Qed.

Lemma gpio_leds_show_store_round_trip_witness :
  let s := snd (gpio_leds_store hw_no_77 junk0 "5,12,200" 8 (initial_state true)) in
  let text := gpio_leds_show_loop (Z.to_nat (led_count s)) 0 s EmptyString in
  let r := gpio_leds_store hw_no_77 junk0 text 8 (initial_state true) in
  snd (gpio_leds_show s) = (text ++ newline)%string /\
  led_count (snd r) = led_count s /\
  led_pins (snd r) = led_pins s.
Proof.
  apply (gpio_leds_show_store_round_trip hw_no_77 junk0 8
           (snd (gpio_leds_store hw_no_77 junk0 "5,12,200" 8 (initial_state true)))
           (initial_state true)).
  - split; [vm_compute; split; discriminate | reflexivity].
  - split; [vm_compute; split; discriminate | reflexivity].
  - vm_compute. discriminate.
  - intros i Hi.
    assert (i = 0 \/ i = 1 \/ i = 2) as [-> | [-> | ->]]
      by (change (led_count _) with 3 in Hi; lia);
      vm_compute; (split; [discriminate | reflexivity]).
Defined.

(** ** Descriptors that end with a newline *)

Lemma fields_from_newline (d cur : string) :
  no_nul d = true ->
  exists fs f, fields_from d cur = fs ++ [f] /\
               fields_from (d ++ newline) cur = fs ++ [(f ++ newline)%string].
Proof.
  revert cur. induction d as [|c d IH]; intros cur Hn.
  - exists [], cur. split; [reflexivity|]. cbn. reflexivity.
  - cbn [no_nul] in Hn. apply andb_true_iff in Hn as [Hc Hd].
    apply negb_true_iff in Hc.
    cbn [String.append fields_from]. rewrite Hc.
    destruct (Ascii.eqb c ",").
    + destruct (IH EmptyString Hd) as (fs & f & E1 & E2).
      exists (cur :: fs), f. rewrite E1, E2. done.
    + apply IH, Hd.
Qed.

Lemma string_length_app (a b : string) :
  String.length (a ++ b) = (String.length a + String.length b)%nat.
Proof. induction a as [|x a IH]; cbn; [done | by rewrite IH]. Qed.

(** The newline that [echo] appends belongs to the last field.  When the
    descriptor has at most nine fields and its last field already has
    three characters, the same descriptor followed by a newline is
    refused: [assign_leds] returns [-EINVAL] and no LED is assigned. *)
Theorem trailing_newline_refused (hw : hardware) (junk : uninit) (d f : string)
        (s : state) :
  led_count s = 0 ->
  no_nul d = true ->
  (length (fields d) <= 9)%nat ->
  last (fields d) = Some f ->
  String.length f = 3%nat ->
  fst (assign_leds hw junk (d ++ newline) s) = - EINVAL /\
  led_count (snd (assign_leds hw junk (d ++ newline) s)) = 0.
Proof.
  intros Hc Hn Hlen Hlast Hf.
  destruct (fields_from_newline d EmptyString Hn) as (fs & f' & E1 & E2).
  fold (fields d) in E1. fold (fields (d ++ newline)) in E2.
  rewrite E1, last_snoc in Hlast. injection Hlast as ->.
  rewrite E1, length_app in Hlen. cbn [length] in Hlen.
  destruct (parse_fields_bad junk (fields (d ++ newline)) s) as (s' & E & C).
  - lia.
  - rewrite Hc, E2. change (Z.to_nat (9 - 0)) with 9%nat.
    rewrite take_ge by (rewrite length_app; cbn [length]; lia).
    apply Exists_app. right. apply Exists_cons_hd.
    unfold bad_field. rewrite string_length_app, Hf. reflexivity.
  - unfold assign_leds. rewrite Hc. change (0 >? 0) with false. cbv iota.
    rewrite assign_leds_scan_fields by (cbn; lia).
    fold (fields (d ++ newline)). rewrite E. done.
Qed.

Lemma trailing_newline_refused_witness :
  fst (assign_leds hw_no_77 junk0 ("5,12,200" ++ newline) (initial_state true))
    = - EINVAL /\
  led_count (snd (assign_leds hw_no_77 junk0 ("5,12,200" ++ newline)
                              (initial_state true))) = 0.
Proof.
  apply (trailing_newline_refused hw_no_77 junk0 "5,12,200" "200"
           (initial_state true)); try reflexivity.
  vm_compute. lia.
Defined.

(** ** The button across two writes *)

(** A button assigned with success: GPIO enabled, the pin valid and the
    interrupt granted.  The write issues, after the release of the
    previous button, exactly: pin as input, debounce of 200, the request
    for the interrupt line of the pin.  If the pin number is positive, the
    next write to [gpio_button_increment] starts by freeing that very
    interrupt line, then unexports and frees the pin. *)
Theorem button_assigned_then_released (hw : hardware) (junk : uninit)
        (buf buf' : string) (count count' : Z) (s : state) :
  let pin := u8 (scan_t junk buf) in
  let irq := u32 (gpio_to_irq hw pin) in
  let s1 := snd (gpio_button_increment_store hw junk buf count s) in
  let s2 := snd (gpio_button_increment_store hw junk buf' count' s1) in
  enable_gpio s = true ->
  gpio_is_valid hw pin = true ->
  request_irq hw irq = 0 ->
  gpio_increment_button s1 = pin /\
  increment_irq s1 = irq /\
  calls s1 = calls (snd (unassign_increment_button s)) ++
             [GpioDirectionInput pin; GpioSetDebounce pin 200; RequestIrq irq 0] /\
  (0 < pin ->
   exists rest, calls s2 = calls s1 ++
                [FreeIrq irq; GpioUnexport pin; GpioFree pin] ++ rest).
Proof.
  intros pin irq s1 s2 Hg Hv Hr.
  set (s0 := snd (unassign_increment_button s)).
  assert (G0 : enable_gpio s0 = true).
  { subst s0. unfold unassign_increment_button. rewrite Hg.
    destruct (_ >? 0); exact Hg. }
  assert (E1 : s1 = issue [GpioDirectionInput pin; GpioSetDebounce pin 200;
                           RequestIrq irq 0]
                          (set_increment_irq irq (set_gpio_increment_button pin s0))).
  { subst s1. unfold gpio_button_increment_store. cbn [snd]. fold pin s0.
    unfold assign_increment_button.
    cbn [enable_gpio gpio_increment_button set_gpio_increment_button].
    rewrite G0, Hv. cbn [negb].
    cbn [gpio_increment_button call increment_irq set_increment_irq
         set_gpio_increment_button].
    fold irq. rewrite Hr. cbn [negb Z.eqb snd].
    unfold issue, call, set_increment_irq. cbn. by rewrite <- !app_assoc. }
  split; [by rewrite E1|]. split; [by rewrite E1|]. split; [by rewrite E1|].
  intros Hp.
  assert (U : snd (unassign_increment_button s1) =
              issue [FreeIrq irq; GpioUnexport pin; GpioFree pin] s1).
  { rewrite E1. unfold unassign_increment_button.
    cbn [enable_gpio gpio_increment_button issue set_increment_irq
         set_gpio_increment_button increment_irq].
    rewrite G0. replace (pin >? 0) with true by (symmetry; apply Z.gtb_lt; lia).
    cbn [snd]. unfold issue, call. cbn. by rewrite <- !app_assoc. }
  subst s2. unfold gpio_button_increment_store. cbn [snd]. rewrite U.
  set (t := u8 (scan_t junk buf')).
  unfold assign_increment_button.
  cbn [enable_gpio gpio_increment_button set_gpio_increment_button issue].
  assert (G1 : enable_gpio s1 = true) by (rewrite E1; exact G0).
  rewrite G1.
  destruct (gpio_is_valid hw t); cbn [negb].
  - eexists. destruct (negb _); cbn; rewrite <- !app_assoc; cbn; reflexivity.
  - exists []. cbn. by rewrite ?app_nil_r.
Qed.

Lemma button_assigned_then_released_witness :
  let s1 := snd (gpio_button_increment_store hw_no_77 junk0 "17" 2 (initial_state true)) in
  let s2 := snd (gpio_button_increment_store hw_no_77 junk0 "18" 2 s1) in
  gpio_increment_button s1 = 17 /\
  increment_irq s1 = 117 /\
  calls s1 = calls (snd (unassign_increment_button (initial_state true))) ++
             [GpioDirectionInput 17; GpioSetDebounce 17 200; RequestIrq 117 0] /\
  (0 < 17 ->
   exists rest, calls s2 = calls s1 ++
                [FreeIrq 117; GpioUnexport 17; GpioFree 17] ++ rest).
Proof.
  apply (button_assigned_then_released hw_no_77 junk0 "17" "18" 2 2
           (initial_state true)); reflexivity.
Defined.

(** A button assigned with success on pin 0 is never released: neither a
    later release on its own nor the release at the start of the next
    write asks anything of the hardware, the interrupt handler stays
    requested. *)
Theorem button_on_pin_zero_not_released (hw : hardware) (junk : uninit)
        (buf : string) (count : Z) (s : state) :
  let s1 := snd (gpio_button_increment_store hw junk buf count s) in
  enable_gpio s = true ->
  u8 (scan_t junk buf) = 0 ->
  gpio_is_valid hw 0 = true ->
  request_irq hw (u32 (gpio_to_irq hw 0)) = 0 ->
  last (calls s1) = Some (RequestIrq (u32 (gpio_to_irq hw 0)) 0) /\
  unassign_increment_button s1 = (0, s1) /\
  unassign_buttons s1 = (0, s1).
Proof.
  intros s1 Hg Hp Hv Hr.
  set (s0 := snd (unassign_increment_button s)).
  assert (G0 : enable_gpio s0 = true).
  { subst s0. unfold unassign_increment_button. rewrite Hg.
    destruct (_ >? 0); exact Hg. }
  assert (E1 : s1 = issue [GpioDirectionInput 0; GpioSetDebounce 0 200;
                           RequestIrq (u32 (gpio_to_irq hw 0)) 0]
                          (set_increment_irq (u32 (gpio_to_irq hw 0))
                             (set_gpio_increment_button 0 s0))).
  { subst s1. unfold gpio_button_increment_store. cbn [snd]. fold s0.
    rewrite Hp. unfold assign_increment_button.
    cbn [enable_gpio gpio_increment_button set_gpio_increment_button].
    rewrite G0, Hv. cbn [negb].
    cbn [gpio_increment_button call increment_irq set_increment_irq
         set_gpio_increment_button].
    rewrite Hr. cbn [negb Z.eqb snd].
    unfold issue, call, set_increment_irq. cbn. by rewrite <- !app_assoc. }
  assert (U : unassign_increment_button s1 = (0, s1)).
  { rewrite E1. unfold unassign_increment_button.
    cbn [enable_gpio gpio_increment_button issue set_increment_irq
         set_gpio_increment_button]. by rewrite G0. }
  split.
  - rewrite E1. cbn [calls issue].
    change [GpioDirectionInput 0; GpioSetDebounce 0 200;
            RequestIrq (u32 (gpio_to_irq hw 0)) 0]
      with ([GpioDirectionInput 0; GpioSetDebounce 0 200] ++
            [RequestIrq (u32 (gpio_to_irq hw 0)) 0]).
    by rewrite app_assoc, last_snoc.
  - split; [exact U|]. unfold unassign_buttons. by rewrite U.
Qed.

Lemma button_on_pin_zero_not_released_witness :
  let s1 := snd (gpio_button_increment_store hw_no_77 junk0 "0" 1 (initial_state true)) in
  last (calls s1) = Some (RequestIrq (u32 (gpio_to_irq hw_no_77 0)) 0) /\
  unassign_increment_button s1 = (0, s1) /\
  unassign_buttons s1 = (0, s1).
Proof.
  apply (button_on_pin_zero_not_released hw_no_77 junk0 "0" 1 (initial_state true));
    reflexivity.
Defined.

(** ** Results of [assign_leds] *)

Lemma parse_fields_code (junk : uninit) (fs : list string) (s : state)
      (code : Z) (s' : state) :
  parse_fields junk fs s = ScanReturn code s' -> code = - EINVAL.
Proof.
  revert s. induction fs as [|f fs IH]; intros s; cbn [parse_fields].
  - discriminate.
  - destruct (bad_field f); [congruence|].
    destruct (_ >=? _); [discriminate | apply IH].
Qed.

(** [assign_leds] returns 0, [-EPERM], [-EINVAL] or [-ENODEV].  It
    returns [-EPERM], and changes nothing, exactly when LEDs are already
    assigned; it never returns [-ENODEV] with GPIO disabled; and inside a
    write to [gpio_leds], where the previous LEDs are released first, it
    never returns [-EPERM]. *)
Theorem assign_leds_results (hw : hardware) (junk : uninit) (d : string)
        (s : state) :
  let r := assign_leds hw junk d s in
  (fst r = 0 \/ fst r = - EPERM \/ fst r = - EINVAL \/ fst r = - ENODEV) /\
  (led_count s > 0 -> r = (- EPERM, s)) /\
  (led_count s <= 0 -> fst r <> - EPERM) /\
  (enable_gpio s = false -> fst r <> - ENODEV) /\
  fst (assign_leds hw junk d (snd (unassign_leds s))) <> - EPERM.
Proof.
  assert (M : forall s0, led_count s0 <= 0 ->
            (fst (assign_leds hw junk d s0) = 0 \/
             fst (assign_leds hw junk d s0) = - EINVAL \/
             fst (assign_leds hw junk d s0) = - ENODEV) /\
            (enable_gpio s0 = false ->
             fst (assign_leds hw junk d s0) <> - ENODEV)).
  { intros s0 H0. unfold assign_leds.
    replace (led_count s0 >? 0) with false
      by (symmetry; rewrite Z.gtb_ltb; apply Z.ltb_ge; lia).
    rewrite assign_leds_scan_fields by (cbn; lia).
    destruct (assign_leds_scan_frame junk d EmptyString s0) as (n & l & F).
    rewrite assign_leds_scan_fields in F by (cbn; lia).
    destruct (parse_fields junk (fields_from d EmptyString) s0) as [code s'|s1] eqn:E.
    - apply parse_fields_code in E as ->. cbn. split; [by right; left | discriminate].
    - cbn [scan_state] in F. subst s1.
      assert (G : enable_gpio (setup_max_possible (leds_of n l s0)) = enable_gpio s0).
      { unfold setup_max_possible. by destruct (_ >? _). }
      rewrite G. destruct (enable_gpio s0).
      + split; [|discriminate].
        match goal with |- context [init_leds hw junk ?m ?i ?s'] =>
          destruct (init_leds_cases hw junk m i s') as [[cs ->] | [cs ->]] end;
          cbn; [by left | by right; right].
      + cbn. split; [by left | discriminate]. }
  intros r. subst r.
  destruct (Z.gtb_spec (led_count s) 0) as [P|P].
  - assert (R : assign_leds hw junk d s = (- EPERM, s)).
    { unfold assign_leds.
      by replace (led_count s >? 0) with true by (symmetry; apply Z.gtb_lt; lia). }
    rewrite R. cbn [fst].
    split; [by right; left|]. split; [done|]. split; [lia|].
    split; [intros _; discriminate|].
    destruct (unassign_leds_state s) as (cs & U & _).
    destruct (M (snd (unassign_leds s))) as [[Q|[Q|Q]] _];
      [rewrite U; cbn; lia | | |]; rewrite Q; discriminate.
  - destruct (M s P) as [Q N].
    split; [destruct Q as [Q|[Q|Q]]; rewrite Q; auto|].
    split; [lia|].
    split; [intros _; destruct Q as [Q|[Q|Q]]; rewrite Q; discriminate|].
    split; [exact N|].
    destruct (unassign_leds_state s) as (cs & U & _).
    destruct (M (snd (unassign_leds s))) as [[Q'|[Q'|Q']] _];
      [rewrite U; cbn; lia | | |]; rewrite Q'; discriminate.
Qed.

Lemma assign_leds_results_witness :
  assign_leds hw_no_77 junk0 "1,2" (set_led_count 3 (initial_state true))
  = (- EPERM, set_led_count 3 (initial_state true)).
Proof.
  apply (assign_leds_results hw_no_77 junk0 "1,2" (set_led_count 3 (initial_state true))).
  cbn. lia.
Defined.

(** ** A write to [gpio_leds], call by call *)

Lemma unassign_leds_exact (s : state) :
  wf_leds s ->
  snd (unassign_leds s) =
    set_led_count 0
      (issue (if enable_gpio s
              then flat_map (release_calls s) (seqZ 0 (led_count s))
              else []) s).
Proof.
  intros [C L]. unfold unassign_leds. cbn [snd]. destruct (enable_gpio s).
  - rewrite unassign_loop_calls by lia. by rewrite Z2Nat.id by lia.
  - by rewrite issue_nil.
Qed.

Lemma setup_max_possible_leds_of_exact (n : Z) (l : list led) (s : state) :
  0 <= n <= 8 ->
  setup_max_possible (leds_of n l s) =
    set_value (if value s >? 2 ^ n - 1 then 0 else value s)
              (set_max_possible (2 ^ n - 1) (leds_of n l s)).
Proof.
  intros H. unfold setup_max_possible.
  cbn [led_count leds_of set_led_values set_led_count].
  rewrite setup_loop_ones by lia. rewrite Z2Nat.id by lia.
  cbn [value max_possible set_max_possible set_led_values set_led_count].
  destruct (_ >? _); reflexivity.
Qed.

(** The state after [assign_leds] when every pin to assign is valid. *)
Lemma assign_leds_valid_exact (hw : hardware) (junk : uninit) (d : string)
      (s : state) :
  led_count s = 0 ->
  length (led_values s) = 8%nat ->
  enable_gpio s = true ->
  Forall (fun f => bad_field f = false) (take 9 (fields d)) ->
  (forall k f, (k < 8)%nat -> fields d !! k = Some f ->
     gpio_is_valid hw (gpio (led_of_field junk (Z.of_nat k) f)) = true) ->
  let n := Z.min (Z.of_nat (length (fields d))) 8 in
  exists l,
    length l = 8%nat /\
    assign_leds hw junk d s =
      (0, issue (map (fun k => GpioDirectionOutput (gpio (l !!! Z.to_nat k)) 0)
                     (seqZ 0 n))
                (set_value (if value s >? 2 ^ n - 1 then 0 else value s)
                   (set_max_possible (2 ^ n - 1) (leds_of n l s)))).
Proof.
  intros Hc Hl Hg Hall Hv n.
  destruct (assign_leds_scan_good junk d s Hc Hl Hall) as (l & E & L & Q).
  fold n in E.
  assert (Hn : 0 <= n <= 8) by (subst n; lia).
  exists l. split; [exact L|].
  unfold assign_leds. rewrite Hc, E. change (0 >? 0) with false.
  cbv iota. rewrite setup_max_possible_leds_of_exact by done.
  cbn [enable_gpio set_value set_max_possible leds_of
       set_led_values set_led_count led_count].
  rewrite Hg. rewrite init_leds_valid; [by rewrite Z2Nat.id by lia | | lia | lia].
  intros k Hk. rewrite Z2Nat.id in Hk by lia.
  unfold led_at. cbn [led_values set_value set_max_possible leds_of
                      set_led_values set_led_count].
  destruct (lookup_lt_is_Some_2 (fields d) (Z.to_nat k)) as [f Hf]; [lia|].
  assert (Hk8 : (Z.to_nat k < 8)%nat) by lia.
  rewrite (list_lookup_total_correct l _ _ (Q (Z.to_nat k) f Hk8 Hf)).
  apply (Hv (Z.to_nat k) f); [lia | done].
Qed.

(** A write to [gpio_leds] with GPIO enabled, a descriptor without
    malformed field and valid pins only.  The hardware is asked, in this
    order: to release every pin assigned before (off, unexport, free), to
    make every new pin an output at level 0, and to drive every new pin to
    its bit of the counter.  The ceiling becomes [2 ^ led_count - 1], the
    value is kept if it fits under it and reset to 0 otherwise, and
    [max_value] is kept. *)
Theorem gpio_leds_store_reassigns (hw : hardware) (junk : uninit) (buf : string)
        (count : Z) (s : state) :
  wf_leds s ->
  enable_gpio s = true ->
  Forall (fun f => bad_field f = false) (take 9 (fields buf)) ->
  (forall k f, (k < 8)%nat -> fields buf !! k = Some f ->
     gpio_is_valid hw (gpio (led_of_field junk (Z.of_nat k) f)) = true) ->
  let r := gpio_leds_store hw junk buf count s in
  let n := Z.min (Z.of_nat (length (fields buf))) 8 in
  fst r = count /\
  led_count (snd r) = n /\
  max_possible (snd r) = 2 ^ n - 1 /\
  value (snd r) = (if value s >? 2 ^ n - 1 then 0 else value s) /\
  max_value (snd r) = max_value s /\
  calls (snd r) =
    calls s
    ++ flat_map (release_calls s) (seqZ 0 (led_count s))
    ++ map (fun k => GpioDirectionOutput (gpio (led_at k (snd r))) 0) (seqZ 0 n)
    ++ map (fun k => GpioSetValue (gpio (led_at k (snd r)))
                       (if Z.testbit (value (snd r)) k then 1 else 0))
           (seqZ 0 n).
Proof.
  intros W Hg Hall Hv r n.
  pose proof (unassign_leds_exact s W) as U. rewrite Hg in U.
  destruct W as [C L].
  set (s1 := snd (unassign_leds s)) in *.
  assert (Hn : 0 <= n <= 8) by (subst n; lia).
  assert (H1 : led_count s1 = 0) by (by rewrite U).
  assert (H2 : length (led_values s1) = 8%nat) by (by rewrite U).
  assert (H3 : enable_gpio s1 = true) by (by rewrite U).
  assert (H4 : value s1 = value s) by (by rewrite U).
  assert (H5 : max_value s1 = max_value s) by (by rewrite U).
  assert (H6 : calls s1 =
               calls s ++ flat_map (release_calls s) (seqZ 0 (led_count s)))
    by (by rewrite U).
  pose proof (assign_leds_valid_exact hw junk buf s1 H1 H2 H3 Hall Hv) as X.
  cbv zeta in X. destruct X as (l & Ll & A). fold n in A.
  set (v := if value s1 >? 2 ^ n - 1 then 0 else value s1) in *.
  set (s2 := issue (map (fun k => GpioDirectionOutput (gpio (l !!! Z.to_nat k)) 0)
                        (seqZ 0 n))
                   (set_value v (set_max_possible (2 ^ n - 1) (leds_of n l s1)))) in *.
  destruct (set_leds_from_value_spec s2) as (C3 & _ & I & _ & K);
    [cbn; lia | cbn; lia |].
  assert (R : snd r = snd (set_leds_from_value s2))
    by (subst r; unfold gpio_leds_store; cbn [snd]; fold s1; by rewrite A).
  assert (V3 : value (snd (set_leds_from_value s2)) = v)
    by (destruct (set_leds_from_value_frame s2) as (l' & cs & ->); reflexivity).
  assert (M3 : max_value (snd (set_leds_from_value s2)) = max_value s
               /\ max_possible (snd (set_leds_from_value s2)) = 2 ^ n - 1).
  { destruct (set_leds_from_value_frame s2) as (l' & cs & ->).
    split; [exact H5 | reflexivity]. }
  assert (G : forall k, 0 <= k < n ->
            gpio (led_at k (snd (set_leds_from_value s2))) = gpio (l !!! Z.to_nat k)).
  { intros k Hk. rewrite I by (cbn; lia). reflexivity. }
  assert (Vs : v = if value s >? 2 ^ n - 1 then 0 else value s)
    by (subst v; by rewrite H4).
  rewrite R. split; [reflexivity|]. split; [rewrite C3; reflexivity|].
  split; [apply M3|]. split; [by rewrite V3|]. split; [apply M3|].
  rewrite K, V3.
  change (value s2) with v. change (enable_gpio s2) with (enable_gpio s1).
  change (led_count s2) with n.
  rewrite H3.
  change (calls s2) with
    (calls s1 ++ map (fun k => GpioDirectionOutput (gpio (l !!! Z.to_nat k)) 0)
                     (seqZ 0 n)).
  rewrite H6.
  rewrite <- !app_assoc. do 2 f_equal. f_equal.
  - apply map_ext_in. intros k Hk.
    apply list_elem_of_In, elem_of_seqZ in Hk. by rewrite G by lia.
  - apply map_ext_in. intros k Hk.
    apply list_elem_of_In, elem_of_seqZ in Hk. rewrite G by lia. reflexivity.
Qed.

Lemma gpio_leds_store_reassigns_witness :
  let s := snd (gpio_leds_store hw_no_77 junk0 "5,6" 3 (initial_state true)) in
  let r := gpio_leds_store hw_no_77 junk0 "7,8,9" 5 s in
  let n := Z.min (Z.of_nat (length (fields "7,8,9"))) 8 in
  fst r = 5 /\
  led_count (snd r) = n /\
  max_possible (snd r) = 2 ^ n - 1 /\
  value (snd r) = (if value s >? 2 ^ n - 1 then 0 else value s) /\
  max_value (snd r) = max_value s /\
  calls (snd r) =
    calls s
    ++ flat_map (release_calls s) (seqZ 0 (led_count s))
    ++ map (fun k => GpioDirectionOutput (gpio (led_at k (snd r))) 0) (seqZ 0 n)
    ++ map (fun k => GpioSetValue (gpio (led_at k (snd r)))
                       (if Z.testbit (value (snd r)) k then 1 else 0))
           (seqZ 0 n).
Proof.
  apply (gpio_leds_store_reassigns hw_no_77 junk0 "7,8,9" 5
           (snd (gpio_leds_store hw_no_77 junk0 "5,6" 3 (initial_state true)))).
  - split; [vm_compute; split; discriminate | reflexivity].
  - reflexivity.
  - vm_compute. repeat constructor.
  - intros [|[|[|k]]] f Hk Hf; vm_compute in Hf; try discriminate;
      injection Hf as <-; reflexivity.
Defined.

(** ** Pin numbers above 255 *)

Lemma decimal_three_digits (t : N) :
  (t < 1000)%N -> bad_field (decimal t) = false.
Proof.
  intros H.
  assert (A : forallb (fun n => negb (bad_field (decimal (N.of_nat n))))
                      (seq 0 1000) = true) by (by vm_compute).
  rewrite forallb_forall in A.
  specialize (A (N.to_nat t)). rewrite N2Nat.id in A.
  apply negb_true_iff, A, in_seq. lia.
Qed.

Lemma fields_decimal (t : N) : fields (decimal t) = [decimal t].
Proof.
  unfold fields. rewrite <- (string_app_nil_r (decimal t)) at 1.
  unfold decimal. rewrite fields_from_numeral. reflexivity.
Qed.

(** A pin number is kept in 8 bits: a descriptor made of one number [t]
    of at most three digits assigns one LED, on pin [t mod 256]. *)
Theorem pin_number_truncated (hw : hardware) (junk : uninit) (t : N) (s : state) :
  led_count s = 0 ->
  length (led_values s) = 8%nat ->
  (t < 1000)%N ->
  led_count (snd (assign_leds hw junk (decimal t) s)) = 1 /\
  led_at 0 (snd (assign_leds hw junk (decimal t) s))
    = Led false (Z.of_N t mod 256).
Proof.
  intros Hc Hl Ht.
  destruct (assign_leds_table hw junk (decimal t) s Hc Hl) as (A & _ & D).
  { rewrite fields_decimal. cbn [take]. apply Forall_cons. split; [|done].
    by apply decimal_three_digits. }
  rewrite fields_decimal in A, D. split; [exact A|].
  specialize (D 0%nat (decimal t) ltac:(lia) eq_refl).
  unfold led_at. rewrite (list_lookup_total_correct _ _ _ D).
  unfold led_of_field. f_equal.
  destruct (sscanf_u_decimal t EmptyString eq_refl) as (x & Hx & Hm).
  rewrite string_app_nil_r in Hx. rewrite Hx. by apply u8_u32.
Qed.

Lemma pin_number_truncated_witness :
  led_count (snd (assign_leds hw_no_77 junk0 (decimal 300) (initial_state false))) = 1 /\
  led_at 0 (snd (assign_leds hw_no_77 junk0 (decimal 300) (initial_state false)))
    = Led false 44.
Proof.
  apply (pin_number_truncated hw_no_77 junk0 300 (initial_state false));
    [reflexivity | reflexivity | lia].
Defined.

(** ** The button interrupt, observably *)

(** C5: with [now_ms] the time of the interrupt, the trigger is accepted
    iff [now_ms - last_interrupt_time_msec], computed on 32 bits with
    wrap-around, is at least 200.  Then the timestamp becomes [now_ms];
    the counter is incremented: below the ceiling [value] becomes
    [value + 1] (on 8 bits) and [max_value] is raised by one when the new
    value exceeds it, at the ceiling [value] wraps to 0 and [max_value] is
    kept; and the LED output is re-applied: every assigned entry gets its
    bit of the new value, the other entries and the pin numbers are kept,
    and with GPIO enabled each assigned pin is driven to its bit, in
    ascending order.  Otherwise the trigger is rejected and nothing
    changes: timestamp, counter, LEDs and hardware. *)
Theorem button_irq_handler_debounce (tv : timeval) (s : state) :
  let now_ms := since_epoch_msec tv s in
  let s' := button_irq_handler tv s in
  (200 <= u32 (now_ms - last_interrupt_time_msec s) ->
     s' = snd (set_leds_from_value
                 (snd (increment_maybe_wrap
                         (set_last_interrupt_time_msec now_ms s)))) /\
     last_interrupt_time_msec s' = now_ms /\
     max_possible s' = max_possible s /\
     (value s < max_possible s ->
        value s' = u8 (value s + 1) /\
        max_value s' = (if u8 (value s + 1) >? max_value s
                        then u8 (max_value s + 1) else max_value s)) /\
     (max_possible s <= value s ->
        value s' = 0 /\ max_value s' = max_value s) /\
     (0 <= led_count s <= 8 -> length (led_values s) = 8%nat ->
        led_count s' = led_count s /\
        (forall i, 0 <= i < led_count s ->
           led_at i s' = Led (Z.testbit (value s') i) (gpio (led_at i s))) /\
        (forall i, led_count s <= i -> led_at i s' = led_at i s) /\
        calls s' = calls s ++
          (if enable_gpio s
           then map (fun i => GpioSetValue (gpio (led_at i s))
                                (if Z.testbit (value s') i then 1 else 0))
                    (seqZ 0 (led_count s))
           else []))) /\
  (u32 (now_ms - last_interrupt_time_msec s) < 200 -> s' = s).
Proof.
  intros now_ms s'. subst s'. unfold button_irq_handler. fold now_ms.
  destruct (Z.ltb_spec (u32 (now_ms - last_interrupt_time_msec s)) 200) as [L|L].
  { split; [lia | reflexivity]. }
  split; [|lia]. intros _.
  set (s1 := set_last_interrupt_time_msec now_ms s).
  set (s2 := snd (increment_maybe_wrap s1)).
  set (s3 := snd (set_leds_from_value s2)).
  destruct (increment_frame s1) as (v & m & E2). fold s2 in E2.
  destruct (set_leds_from_value_frame s2) as (l & cs & E3). fold s3 in E3.
  assert (V3 : value s3 = value s2) by (by rewrite E3).
  assert (M3 : max_value s3 = max_value s2) by (by rewrite E3).
  split; [reflexivity|].
  split; [by rewrite E3, E2|].
  split; [by rewrite E3, E2|].
  split; [|split].
  - intros Hlt. rewrite V3, M3. subst s2.
    rewrite (increment_below s1) by exact Hlt. cbn [snd].
    change (value s1) with (value s). change (max_value s1) with (max_value s).
    destruct (_ >? _); done.
  - intros Hge. rewrite V3, M3. subst s2.
    rewrite (increment_at_ceiling s1) by exact Hge. done.
  - intros Hc Hl.
    assert (C2 : led_count s2 = led_count s) by (by rewrite E2).
    assert (L2 : led_values s2 = led_values s) by (by rewrite E2).
    assert (G2 : enable_gpio s2 = enable_gpio s) by (by rewrite E2).
    assert (K2 : calls s2 = calls s) by (by rewrite E2).
    assert (A2 : forall i, led_at i s2 = led_at i s)
      by (intros i; unfold led_at; by rewrite L2).
    destruct (set_leds_from_value_spec s2) as (C3 & _ & I & O & K);
      [lia | rewrite C2, L2; lia |].
    fold s3 in C3, I, O, K.
    rewrite C2 in C3, I, O, K. rewrite G2, K2 in K.
    split; [exact C3|]. split; [|split].
    + intros i Hi. rewrite I, V3, A2 by done. reflexivity.
    + intros i Hi. rewrite O, A2 by done. reflexivity.
    + rewrite K, V3. f_equal. destruct (enable_gpio s); [|done].
      apply map_ext_in. intros i _. by rewrite A2.
Qed.

Lemma button_irq_handler_debounce_witness :
  let s := set_last_interrupt_time_msec 4294967200
             (set_max_value 2 (set_value 2
                (snd (gpio_leds_store hw_all_valid junk0 "5,6,7" 5
                                      (initial_state true))))) in
  let s' := button_irq_handler (Timeval 0 150000) s in
  (last_interrupt_time_msec s' = 150 /\
   value s' = 3 /\ max_value s' = 3 /\ max_possible s' = 7 /\
   led_at 0 s' = Led true 5 /\ led_at 1 s' = Led true 6 /\
   led_at 2 s' = Led false 7 /\
   calls s' = calls s ++ [GpioSetValue 5 1; GpioSetValue 6 1; GpioSetValue 7 0]) /\
  button_irq_handler (Timeval 0 50000) s = s.
Proof.
  intros s s'. split.
  - destruct (button_irq_handler_debounce (Timeval 0 150000) s) as [A _].
    destruct A as (_ & T & P & V & _ & D); [vm_compute; discriminate|].
    destruct V as [V M]; [reflexivity|].
    destruct D as (_ & I & _ & K); [vm_compute; split; discriminate | reflexivity |].
    split; [exact T|]. split; [exact V|]. split; [exact M|]. split; [exact P|].
    split; [apply (I 0); vm_compute; split; [discriminate | reflexivity]|].
    split; [apply (I 1); vm_compute; split; [discriminate | reflexivity]|].
    split; [apply (I 2); vm_compute; split; [discriminate | reflexivity]|].
    exact K.
  - apply (button_irq_handler_debounce (Timeval 0 50000) s). vm_compute. reflexivity.
Defined.
